(** * The serial listener: tokenizing a byte stream and dispatching tokens

    A shallow embedding of [src/impl/unix.cc] (the byte source,
    [Serial::SerialImpl]) and of [src/serial_listener.cc] (the listener
    engine, [SerialListener]), followed by the properties of the
    specification that concern them.

    Conventions.
    - A [std::string] holding stream data is a list of characters.
    - A C++ exception is a value of [exn]; a method is a function from the
      state of the process to an [outcome], which is a normal return, a
      thrown exception, a call to [exit], or undefined behaviour.
    - Calls to user code and to the configurable handlers are recorded, in
      order, in the [events] of the process. *)

From Stdlib Require Import Ascii String ZArith Lia Bool Arith List.
Import ListNotations.

Local Open Scope string_scope.
Local Open Scope nat_scope.
Local Open Scope list_scope.

(** ** Strings and exceptions *)

Definition bytes := list ascii.

(** The text of a literal as stream data. *)
Definition lit (s : string) : bytes := list_ascii_of_string s.

(** Carriage return, the default delimiter. *)
Definition CR : ascii := ascii_of_nat 13.

(** What a [throw] can carry in the two source files: an object of a class
    derived from [std::exception] (of which [SerialListenerException] is
    one), or a string literal, whose type is [const char*]. *)
Inductive exn : Type :=
| std_exception (what : string)
| SerialListenerException (what : string)
| c_string (msg : string).

(** Whether a handler [catch (std::exception &e)] accepts the exception. *)
Definition is_std_exception (e : exn) : bool :=
  match e with
  | std_exception _ | SerialListenerException _ => true
  | c_string _ => false
  end.

(** [e.what()] for the exceptions a [catch (std::exception &e)] receives. *)
Definition what (e : exn) : string :=
  match e with
  | std_exception w | SerialListenerException w | c_string w => w
  end.

(** The behaviour of a piece of user code on one argument: it returns a
    value or it throws. *)
Inductive result (A : Type) : Type :=
| Returns (a : A)
| Raises (e : exn).
Arguments Returns {A} a.
Arguments Raises {A} e.

(** ** The byte source: [Serial::SerialImpl] of [src/impl/unix.cc] *)

Module SerialImpl.

(** The members [read] and [isOpen] look at.  How a port comes to be open
    ([open], [reconfigurePort]) is not part of the model. *)
Record t : Type := mk {
  fd_ : Z;
  isOpen_ : bool;
  timeout_ : Z
}.

(** What the operating system answers during one turn of the loop of
    [read]: the value of [select], [errno], whether [fd_] is still set in
    [readfds], and, for the case that [::read] is called, its return value
    and the bytes it stored in [buf]. *)
Record poll : Type := mkPoll {
  sel_r : Z;
  sel_errno : Z;
  sel_isset : bool;
  rd_n : Z;
  rd_buf : bytes
}.

(** A device is the sequence of answers to come.  When it is used up the
    device stays quiet: [select] times out with [fd_] not set. *)
Definition device := list poll.

Definition EINTR : Z := 4.
Definition EXIT_FAILURE : Z := 1.

(** Conversion of the [ssize_t] returned by [::read] to [size_t]. *)
Definition to_size_t (z : Z) : Z := z mod 2 ^ 64.

(** How a call of [read] ends. *)
Inductive ending : Type :=
| Returned (message : bytes) (rest : device)
| Thrown (e : exn) (rest : device)
| Exited (status : Z) (rest : device)
| Undefined_behaviour.

Definition isOpen (s : t) : bool := isOpen_ s.

(** The content of [buf] after [memset (buf, 0, 1024)] and a [::read] that
    stored [data] at its start. *)
Definition buf_after (data : bytes) : bytes :=
  firstn 1024 (data ++ repeat zero 1024).

(** The loop [while (message.length() < size)]. *)
Fixpoint read_loop (size : nat) (message : bytes) (dev : device) : ending :=
  if length message <? size then
    match dev with
    | [] => Returned message []                       (* timeout: break *)
    | p :: rest =>
        if (sel_r p =? -1)%Z && (sel_errno p =? EINTR)%Z then
          read_loop size message rest                  (* continue *)
        else if (sel_r p =? -1)%Z then
          Exited EXIT_FAILURE rest                     (* perror; exit *)
        else if sel_isset p then
          let bytes_read := to_size_t (rd_n p) in
          if (bytes_read <? 1)%Z then
            Thrown (c_string "SerialException('device reports readiness to read but returned no data (device disconnected?)')") rest
          else if (bytes_read <=? 1024)%Z then
            read_loop size
              (message ++ firstn (Z.to_nat bytes_read) (buf_after (rd_buf p)))
              rest
          else
            (* [message.append (buf, bytes_read)] reads past the 1024
               characters of [buf] *)
            Undefined_behaviour
        else
          Returned message rest                        (* timeout: break *)
    end
  else Returned message dev.

Definition read (s : t) (size : nat) (dev : device) : ending :=
  if negb (isOpen_ s) then Thrown (c_string "PortNotOpenError()") dev
  else read_loop size [] dev.

(** A turn in which the device delivers [data] (1 to 1024 bytes). *)
Definition delivers (data : bytes) : poll :=
  mkPoll 1 0 true (Z.of_nat (length data)) data.

(** A turn in which the device is ready but [::read] returns 0, as a
    disconnected device does. *)
Definition disconnected : poll := mkPoll 1 0 true 0 [].

(** A turn in which [select] fails with an error other than [EINTR]. *)
Definition select_fails (errno : Z) : poll := mkPoll (-1) errno false 0 [].

End SerialImpl.

(** ** Tokens, tokenizers and the dispatch queue *)

(** A [TokenPtr] is a shared pointer to a string that is never written
    after its creation; the listener only reads it through [*token]. *)
Definition TokenPtr := bytes.

(** A tokenizer receives the buffer and fills the vector of tokens. *)
Definition TokenizerType := bytes -> list TokenPtr.

(** If [s = d ++ r], the rest [r]. *)
Fixpoint strip_prefix (d s : bytes) : option bytes :=
  match d, s with
  | [], _ => Some s
  | _ :: _, [] => None
  | a :: d', b :: s' => if Ascii.eqb a b then strip_prefix d' s' else None
  end.

(** If [s = p ++ d], the part [p] before the delimiter. *)
Definition strip_suffix (d s : bytes) : option bytes :=
  option_map (@rev ascii) (strip_prefix (rev d) (rev s)).

(** Modelled from the spec: the "delimiter-based split on a configurable
    delimiter sequence" of the default tokenizer, whose code is in the
    header [serial/serial_listener.h].  [s] is cut at the occurrences of the
    delimiter sequence [d], scanning from the left; [cur] is the fragment
    read since the last delimiter.  The last element of the result is the
    fragment after the last delimiter. *)
Fixpoint split_from (d cur s : bytes) : list bytes :=
  match s with
  | [] => [cur]
  | c :: s' =>
      match strip_suffix d (cur ++ [c]) with
      | Some token => token :: split_from d [] s'
      | None => split_from d (cur ++ [c]) s'
      end
  end.

(** No occurrence of the delimiter [d] ends inside [cur]: scanning [cur]
    from an empty fragment completes no token. *)
Definition delimiter_free (d cur : bytes) : Prop :=
  forall p q, cur = p ++ q -> p <> [] -> strip_suffix d p = None.

(** Modelled from the spec: [delimeter_tokenizer], which the constructor
    installs and whose definition is in the header
    [serial/serial_listener.h].  The spec describes it as a
    "delimiter-based split on a configurable delimiter sequence; the final,
    possibly-incomplete fragment after the last delimiter becomes the
    remainder"; the listener takes the last element of the vector as that
    remainder ([filterNewTokens]) and the elements before it as the
    completed tokens ([filter]). *)
Definition delimeter_tokenizer (delimeter : bytes) : TokenizerType :=
  fun data => split_from delimeter [] data.

(** The completed tokens and the remainder of a vector of tokens, as
    [filter] and [filterNewTokens] read them. *)
Definition completed (new_tokens : list TokenPtr) : list TokenPtr :=
  removelast new_tokens.
Definition remainder (new_tokens : list TokenPtr) : bytes :=
  last new_tokens [].

(** The tokens joined again by the delimiter. *)
Fixpoint join (d : bytes) (l : list bytes) : bytes :=
  match l with
  | [] => []
  | [x] => x
  | x :: rest => x ++ d ++ join d rest
  end.

(** ** Filters *)

(** A user function receiving a token: [label] tells the functions apart in
    the record of events, [run] is what the function does: return or
    throw. *)
Record user_fn : Type := mkFn {
  label : nat;
  run : bytes -> result unit
}.

(** A [DataCallback] is a user function or the value the constructor builds
    with [boost::bind (&SerialListener::default_handler, this, _1)]. *)
Inductive DataCallback : Type :=
| user (f : user_fn)
| bound_default_handler.

(** A comparator returns a boolean or throws. *)
Definition ComparatorType := bytes -> result bool.

(** A [FilterPtr]: the address of the [Filter] object, by which
    [std::find] compares two pointers, and the two members of the object. *)
Record FilterPtr : Type := mkFilter {
  address : nat;
  comparator_ : ComparatorType;
  callback_ : DataCallback
}.

Definition same_filter (f g : FilterPtr) : bool := address f =? address g.

(** Modelled from the spec: the dispatch queue, a [ConcurrentQueue] of the
    header [serial/serial_listener.h]: "FIFO", with [push], a
    [popWithTimeout] that "returns none on timeout" and a [clear] that
    "drops all pending entries". *)
Definition queue := list (FilterPtr * TokenPtr).

(** Modelled from the spec: [push] of the dispatch queue, at the end of the
    "FIFO". *)
Definition queue_push (e : FilterPtr * TokenPtr) (q : queue) : queue := q ++ [e].

(** Modelled from the spec: [timed_wait_and_pop] of the dispatch queue, the
    [popWithTimeout] of the spec: the oldest entry, or none when the wait
    ends with the queue still empty. *)
Definition queue_timed_wait_and_pop (q : queue)
  : option ((FilterPtr * TokenPtr) * queue) :=
  match q with
  | [] => None
  | e :: q' => Some (e, q')
  end.

(** Modelled from the spec: [clear] of the dispatch queue, which "drops all
    pending entries". *)
Definition queue_clear (q : queue) : queue := [].

(** ** The listener and the process around it *)

Fixpoint bytes_eqb (a b : bytes) : bool :=
  match a, b with
  | [], [] => true
  | x :: a', y :: b' => Ascii.eqb x y && bytes_eqb a' b'
  | _, _ => false
  end.

Definition defaultComparator : ComparatorType :=
  fun token => Returns (bytes_eqb token token).

(** The data members of [SerialListener] that the methods of
    [serial_listener.cc] use.  [serial_port_] is a pointer, [None] being
    [NULL]; a [Serial] forwards [isOpen] and [read] to its [SerialImpl].
    [listen_thread] and [callback_thread] tell whether the thread has been
    launched and not yet joined. *)
Record SerialListener : Type := mkListener {
  listening : bool;
  chunk_size_ : nat;
  serial_port_ : option SerialImpl.t;
  data_buffer : bytes;
  filters : list FilterPtr;
  callback_queue : queue;
  _default_handler : option user_fn;
  default_comparator : ComparatorType;
  default_filter : FilterPtr;
  tokenize : TokenizerType;
  listen_thread : bool;
  callback_thread : bool
}.

Definition set_listening (b : bool) (l : SerialListener) : SerialListener :=
  mkListener b (chunk_size_ l) (serial_port_ l) (data_buffer l) (filters l)
    (callback_queue l) (_default_handler l) (default_comparator l)
    (default_filter l) (tokenize l) (listen_thread l) (callback_thread l).

Definition set_serial_port_ (s : option SerialImpl.t) (l : SerialListener)
  : SerialListener :=
  mkListener (listening l) (chunk_size_ l) s (data_buffer l) (filters l)
    (callback_queue l) (_default_handler l) (default_comparator l)
    (default_filter l) (tokenize l) (listen_thread l) (callback_thread l).

Definition set_data_buffer (b : bytes) (l : SerialListener) : SerialListener :=
  mkListener (listening l) (chunk_size_ l) (serial_port_ l) b (filters l)
    (callback_queue l) (_default_handler l) (default_comparator l)
    (default_filter l) (tokenize l) (listen_thread l) (callback_thread l).

Definition set_filters (fs : list FilterPtr) (l : SerialListener)
  : SerialListener :=
  mkListener (listening l) (chunk_size_ l) (serial_port_ l) (data_buffer l) fs
    (callback_queue l) (_default_handler l) (default_comparator l)
    (default_filter l) (tokenize l) (listen_thread l) (callback_thread l).

Definition set_callback_queue (q : queue) (l : SerialListener)
  : SerialListener :=
  mkListener (listening l) (chunk_size_ l) (serial_port_ l) (data_buffer l)
    (filters l) q (_default_handler l) (default_comparator l)
    (default_filter l) (tokenize l) (listen_thread l) (callback_thread l).

Definition set_threads (lt ct : bool) (l : SerialListener) : SerialListener :=
  mkListener (listening l) (chunk_size_ l) (serial_port_ l) (data_buffer l)
    (filters l) (callback_queue l) (_default_handler l) (default_comparator l)
    (default_filter l) (tokenize l) lt ct.

Definition set_default_handler (h : option user_fn) (l : SerialListener)
  : SerialListener :=
  mkListener (listening l) (chunk_size_ l) (serial_port_ l) (data_buffer l)
    (filters l) (callback_queue l) h (default_comparator l)
    (default_filter l) (tokenize l) (listen_thread l) (callback_thread l).

(** What the process does that can be observed from outside the listener:
    calls of user functions, calls of the configurable handlers, and the
    line [callback] prints for each entry it pops. *)
Inductive event : Type :=
| Called (label : nat) (token : bytes)
| HandleExc (e : exn)
| Warn (msg : string)
| Info (msg : string)
| Debug (msg : string)
| Cout (token : bytes).

(** The state the methods act on: the listener object, the device behind
    its port, the next free address for [new Filter], and the events so
    far, oldest first. *)
Record Process : Type := mkProcess {
  this : SerialListener;
  dev : SerialImpl.device;
  heap_top : nat;
  events : list event
}.

Definition upd_this (f : SerialListener -> SerialListener) (p : Process)
  : Process :=
  mkProcess (f (this p)) (dev p) (heap_top p) (events p).
Definition set_dev (d : SerialImpl.device) (p : Process) : Process :=
  mkProcess (this p) d (heap_top p) (events p).
Definition set_heap_top (n : nat) (p : Process) : Process :=
  mkProcess (this p) (dev p) n (events p).
Definition add_event (e : event) (p : Process) : Process :=
  mkProcess (this p) (dev p) (heap_top p) (events p ++ [e]).

(** ** Methods as state transformers with exceptions *)

Inductive outcome (A : Type) : Type :=
| Ret (a : A) (p : Process)          (* normal return *)
| Throw (e : exn) (p : Process)      (* an exception is propagating *)
| Exit (status : Z) (p : Process)    (* [exit (status)] was called *)
| Undefined.                         (* undefined behaviour *)
Arguments Ret {A} a p.
Arguments Throw {A} e p.
Arguments Exit {A} status p.
Arguments Undefined {A}.

Definition M (A : Type) : Type := Process -> outcome A.

Definition ret {A} (a : A) : M A := fun p => Ret a p.

Definition bind {A B} (m : M A) (k : A -> M B) : M B :=
  fun p =>
    match m p with
    | Ret a p' => k a p'
    | Throw e p' => Throw e p'
    | Exit st p' => Exit st p'
    | Undefined => Undefined
    end.

Notation "x <- m ;; k" := (bind m (fun x => k))
  (at level 61, m at next level, right associativity).
Notation "m ;; k" := (bind m (fun _ => k))
  (at level 61, right associativity).

Definition throw {A} (e : exn) : M A := fun p => Throw e p.
Definition undefined {A} : M A := fun _ => Undefined.
Definition gets {A} (f : SerialListener -> A) : M A := fun p => Ret (f (this p)) p.
Definition modify (f : SerialListener -> SerialListener) : M unit :=
  fun p => Ret tt (upd_this f p).
Definition emit (e : event) : M unit := fun p => Ret tt (add_event e p).

(** [try body catch (std::exception &e) handler]: an exception of another
    type passes through. *)
Definition try_catch_std {A} (body : M A) (handler : exn -> M A) : M A :=
  fun p =>
    match body p with
    | Throw e p' => if is_std_exception e then handler e p' else Throw e p'
    | o => o
    end.

(** Running user code. *)
Definition of_result {A} (r : result A) : M A :=
  match r with
  | Returns a => ret a
  | Raises e => throw e
  end.

Definition call_user (f : user_fn) (token : bytes) : M unit :=
  emit (Called (label f) token) ;; of_result (run f token).

(** [this->handle_exc (e)]: the configured handler is assumed to return. *)
Definition handle_exc (e : exn) : M unit := emit (HandleExc e).

(** ** The methods of [serial_listener.cc] *)

(** [SerialListener::default_handler]. *)
Definition default_handler (token : bytes) : M unit :=
  h <- gets _default_handler ;;
  match h with
  | Some f => call_user f token
  | None => ret tt
  end.

(** Calling a [DataCallback]. *)
Definition call (cb : DataCallback) (token : bytes) : M unit :=
  match cb with
  | user f => call_user f token
  | bound_default_handler => default_handler token
  end.

(** Modelled from the spec: the setter of the default-token handler, one
    of the "configurable" callbacks; its definition is in the header
    [serial/serial_listener.h]. *)
Definition setDefaultHandler (h : user_fn) : M unit :=
  modify (set_default_handler (Some h)).

(** The constructor.  The [Filter] of [default_filter] is the first object
    allocated; it is not put in [filters].  The constructor does not
    initialise [serial_port_]; it is taken to be [NULL]. *)
Definition SerialListener_new : SerialListener :=
  {| listening := false;
     chunk_size_ := 5;
     serial_port_ := None;
     data_buffer := [];
     filters := [];
     callback_queue := [];
     _default_handler := None;
     default_comparator := defaultComparator;
     default_filter := mkFilter 0 defaultComparator bound_default_handler;
     tokenize := delimeter_tokenizer [CR];
     listen_thread := false;
     callback_thread := false |}.

Definition Process_new (d : SerialImpl.device) : Process :=
  mkProcess SerialListener_new d 1 [].

(** [SerialListener::startListening]. *)
Definition startListening (serial_port : SerialImpl.t) : M unit :=
  l <- gets listening ;;
  if l then throw (SerialListenerException "Already listening.")
  else
    modify (set_listening true) ;;
    modify (set_serial_port_ (Some serial_port)) ;;
    if negb (SerialImpl.isOpen serial_port)
    then throw (SerialListenerException "Serial port not open.")
    else modify (set_threads true true).

(** [SerialListener::removeAllFilters]. *)
Definition removeAllFilters : M unit :=
  modify (set_filters []) ;;
  modify (fun l => set_callback_queue (queue_clear (callback_queue l)) l).

(** [SerialListener::stopListening].  The two [join]s return when the two
    threads have ended; [threads] is what the threads did to the process
    from the moment the flag was cleared until then. *)
Definition stopListening (threads : Process -> Process) : M unit :=
  modify (set_listening false) ;;
  (fun p => Ret tt (upd_this (set_threads false false) (threads p))) ;;
  modify (set_data_buffer []) ;;
  modify (set_serial_port_ None) ;;
  removeAllFilters.

(** [SerialListener::determineAmountToRead]. *)
Definition determineAmountToRead : M nat := gets chunk_size_.

(** [serial_port_->read (this_many)] on the device of the process. *)
Definition port_read (s : SerialImpl.t) (this_many : nat) : M bytes :=
  fun p =>
    match SerialImpl.read s this_many (dev p) with
    | SerialImpl.Returned message rest => Ret message (set_dev rest p)
    | SerialImpl.Thrown e rest => Throw e (set_dev rest p)
    | SerialImpl.Exited st rest => Exit st (set_dev rest p)
    | SerialImpl.Undefined_behaviour => Undefined
    end.

(** [SerialListener::readSomeData]; the result is the value left in
    [temp].  With a null [serial_port_] the handler is called and the
    pointer is dereferenced all the same. *)
Definition readSomeData (this_many : nat) : M bytes :=
  port <- gets serial_port_ ;;
  match port with
  | None =>
      handle_exc (SerialListenerException "Invalid serial port.") ;;
      undefined
  | Some s =>
      (if negb (SerialImpl.isOpen s)
       then handle_exc (SerialListenerException "Serial port not open.")
       else ret tt) ;;
      port_read s this_many
  end.

(** The loop of [SerialListener::filter] over the tokens; the last element
    of the vector is skipped. *)
Fixpoint filter_from (filter : FilterPtr) (tokens : list TokenPtr) : M unit :=
  match tokens with
  | [] => ret tt
  | token :: rest =>
      match rest with
      | [] => ret tt                     (* it == tokens.end()-1: continue *)
      | _ :: _ =>
          matched <- of_result (comparator_ filter token) ;;
          (if matched
           then modify (fun l =>
                  set_callback_queue
                    (queue_push (filter, token) (callback_queue l)) l)
           else ret tt) ;;
          filter_from filter rest
      end
  end.

(** [SerialListener::filter]. *)
Definition filter (filter : FilterPtr) (tokens : list TokenPtr) : M unit :=
  filter_from filter tokens.

(** The loop of [filterNewTokens] over the registered filters. *)
Fixpoint for_each_filter (fs : list FilterPtr) (new_tokens : list TokenPtr)
  : M unit :=
  match fs with
  | [] => ret tt
  | f :: rest => filter f new_tokens ;; for_each_filter rest new_tokens
  end.

(** [SerialListener::filterNewTokens]; [new_tokens.back ()] on an empty
    vector is undefined. *)
Definition filterNewTokens (new_tokens : list TokenPtr) : M unit :=
  fs <- gets filters ;;
  for_each_filter fs new_tokens ;;
  match new_tokens with
  | [] => undefined
  | _ :: _ => modify (set_data_buffer (last new_tokens []))
  end.

(** The part of the loop body of [SerialListener::listen] that follows the
    read: what is done with the bytes in [temp]. *)
Definition listen_on (temp : bytes) : M unit :=
  if negb (length temp =? 0) then
    modify (fun l => set_data_buffer (data_buffer l ++ temp) l) ;;
    buffer <- gets data_buffer ;;
    tokenizer <- gets tokenize ;;
    filterNewTokens (tokenizer buffer)
  else ret tt.

(** The body of the loop of [SerialListener::listen]: one read cycle. *)
Definition listen_cycle : M unit :=
  this_many <- determineAmountToRead ;;
  temp <- readSomeData this_many ;;
  listen_on temp.

(** Several read cycles in which the reads returned [chunks], in order. *)
Fixpoint listen_on_chunks (chunks : list bytes) : M unit :=
  match chunks with
  | [] => ret tt
  | temp :: rest => listen_on temp ;; listen_on_chunks rest
  end.

(** Whether a thread function has left its loop after the cycles it was
    given. *)
Inductive loop_state : Type := left_loop | in_loop.

(** [while (this->listening)] of [listen], followed for at most [cycles]
    turns. *)
Fixpoint listen_loop (cycles : nat) : M loop_state :=
  match cycles with
  | O => ret in_loop
  | S n =>
      l <- gets listening ;;
      if l then listen_cycle ;; listen_loop n else ret left_loop
  end.

(** [SerialListener::listen], the function of the producer thread.  A
    [Throw] as its outcome is an exception that leaves the thread
    function. *)
Definition listen (cycles : nat) : M loop_state :=
  try_catch_std (listen_loop cycles)
    (fun e => handle_exc (SerialListenerException (what e)) ;; ret left_loop).

(** [SerialListener::createFilter]. *)
Definition createFilter (comparator : ComparatorType) (callback : DataCallback)
  : M FilterPtr :=
  fun p =>
    let filter_ptr := mkFilter (heap_top p) comparator callback in
    Ret filter_ptr
      (upd_this (fun l => set_filters (filters l ++ [filter_ptr]) l)
         (set_heap_top (S (heap_top p)) p)).

(** [std::find (filters.begin (), filters.end (), filter_ptr)] as an index;
    [length fs] stands for [filters.end ()]. *)
Fixpoint find_filter (filter_ptr : FilterPtr) (fs : list FilterPtr) : nat :=
  match fs with
  | [] => 0
  | f :: rest =>
      if same_filter f filter_ptr then 0 else S (find_filter filter_ptr rest)
  end.

(** [vector::erase (position)]: the position must be that of an element;
    erasing at [end ()] is undefined. *)
Fixpoint erase {A} (position : nat) (v : list A) : option (list A) :=
  match v, position with
  | [], _ => None
  | _ :: rest, O => Some rest
  | x :: rest, S n => option_map (cons x) (erase n rest)
  end.

(** [SerialListener::removeFilter (FilterPtr)]. *)
Definition removeFilter (filter_ptr : FilterPtr) : M unit :=
  fs <- gets filters ;;
  match erase (find_filter filter_ptr fs) fs with
  | Some fs' => modify (set_filters fs')
  | None => undefined
  end.

(** ** The callback thread, step by step *)

(** Where the thread running [SerialListener::callback] stands. *)
Inductive runner_pc : Type :=
| at_while                                  (* at [while (this->listening)] *)
| at_pop                                    (* in [timed_wait_and_pop] *)
| at_recheck (entry : FilterPtr * TokenPtr) (* at the inner [if (this->listening)] *)
| at_invoke (entry : FilterPtr * TokenPtr)  (* about to call [callback_] *)
| returned                                  (* [callback] has returned *)
| escaped (e : exn)                         (* an exception left [callback] *)
| stopped.                                  (* the process is gone *)

(** One step of the callback thread. *)
Definition runner_step (pc : runner_pc) (p : Process) : runner_pc * Process :=
  match pc with
  | at_while =>
      if listening (this p) then (at_pop, p) else (returned, p)
  | at_pop =>
      match queue_timed_wait_and_pop (callback_queue (this p)) with
      | Some (entry, q) =>
          (at_recheck entry,
           add_event (Cout (snd entry)) (upd_this (set_callback_queue q) p))
      | None => (at_while, p)
      end
  | at_recheck entry =>
      if listening (this p) then (at_invoke entry, p) else (at_while, p)
  | at_invoke entry =>
      match try_catch_std (call (callback_ (fst entry)) (snd entry))
                          handle_exc p with
      | Ret _ p' => (at_while, p')
      | Throw e p' => (escaped e, p')
      | Exit _ p' => (stopped, p')
      | Undefined => (stopped, p)
      end
  | returned | escaped _ | stopped => (pc, p)
  end.

(** What can happen next in the process while the callback thread runs:
    the thread takes a step, or another thread writes the flag
    ([stopListening], [startListening]), pushes an entry ([filter]) or
    clears the queue ([removeAllFilters]). *)
Inductive action : Type :=
| runner
| write_listening (b : bool)
| push (entry : FilterPtr * TokenPtr)
| clear.

Definition act (a : action) (c : runner_pc * Process) : runner_pc * Process :=
  match a with
  | runner => runner_step (fst c) (snd c)
  | write_listening b => (fst c, upd_this (set_listening b) (snd c))
  | push entry =>
      (fst c,
       upd_this (fun l =>
         set_callback_queue (queue_push entry (callback_queue l)) l) (snd c))
  | clear =>
      (fst c,
       upd_this (fun l =>
         set_callback_queue (queue_clear (callback_queue l)) l) (snd c))
  end.

(** A schedule is the order in which these things happen. *)
Fixpoint run_schedule (sched : list action) (c : runner_pc * Process)
  : runner_pc * Process :=
  match sched with
  | [] => c
  | a :: rest => run_schedule rest (act a c)
  end.

(** The entries appended to the dispatch queue, in order. *)
Definition push_all (entries : queue) (p : Process) : Process :=
  upd_this (fun l => set_callback_queue (callback_queue l ++ entries) l) p.

(** Whether the comparator of [f] accepts [token]; a comparator that throws
    accepts nothing. *)
Definition matches (f : FilterPtr) (token : bytes) : bool :=
  match comparator_ f token with
  | Returns b => b
  | Raises _ => false
  end.

(** The comparator of [f] returns on every token of [tokens]. *)
Definition quiet (f : FilterPtr) (tokens : list bytes) : Prop :=
  forall t, In t tokens -> exists b, comparator_ f t = Returns b.

(** The entries one sweep of [filter] pushes for [f]. *)
Definition matches_of (tokens : list bytes) (f : FilterPtr) : queue :=
  map (pair f) (List.filter (matches f) tokens).

(** The calls of user functions among the events. *)
Definition is_call (e : event) : bool :=
  match e with
  | Called _ _ => true
  | _ => false
  end.
Definition calls (p : Process) : list event := List.filter is_call (events p).

(** The entries a batch would put on the queue if its matches were pushed
    token by token: for each completed token in turn, the filters that
    match it, in registration order. *)
Definition token_major (fs : list FilterPtr) (tokens : list TokenPtr) : queue :=
  flat_map
    (fun t => map (fun f => (f, t)) (List.filter (fun f => matches f t) fs))
    (completed tokens).

(** The listener has the tokenizer for the delimiter [d], and no comparator
    of its registry throws. *)
Definition steady (d : bytes) (p : Process) : Prop :=
  tokenize (this p) = delimeter_tokenizer d
  /\ forall f, In f (filters (this p)) ->
               forall t, exists b, comparator_ f t = Returns b.

(** Incremental tokenization in the words of the spec: each chunk is
    appended to the remainder carried so far, the result is tokenized, the
    completed tokens are given out and the new remainder is carried
    forward.  The result is the batch of completed tokens of each chunk and
    the remainder after the last chunk. *)
Fixpoint incremental (tokenizer : TokenizerType) (carried : bytes)
         (chunks : list bytes) : list (list TokenPtr) * bytes :=
  match chunks with
  | [] => ([], carried)
  | chunk :: rest =>
      let new_tokens := tokenizer (carried ++ chunk) in
      let (batches, r) := incremental tokenizer (remainder new_tokens) rest in
      (completed new_tokens :: batches, r)
  end.

(** The entries that batches of tokens put on the queue, batch after
    batch, each batch filter by filter. *)
Definition entries_for (fs : list FilterPtr) (batches : list (list TokenPtr))
  : queue :=
  flat_map (fun tokens => flat_map (matches_of tokens) fs) batches.

(** ** Concrete listeners, ports and devices *)

(** The state a sequence of calls leaves behind. *)
Definition after {A} (m : M A) (p : Process) : Process :=
  match m p with
  | Ret _ p' | Throw _ p' | Exit _ p' => p'
  | Undefined => p
  end.

Definition open_port : SerialImpl.t := SerialImpl.mk 3 true 1000.
Definition closed_port : SerialImpl.t := SerialImpl.mk (-1) false 1000.

Definition accept_all : ComparatorType := fun _ => Returns true.
Definition equals (s : bytes) : ComparatorType :=
  fun token => Returns (bytes_eqb token s).
Definition faulty (e : exn) : ComparatorType := fun _ => Raises e.

(** A user callback that returns. *)
Definition notes (n : nat) : DataCallback := user (mkFn n (fun _ => Returns tt)).

Definition filter1 : FilterPtr := mkFilter 1 accept_all (notes 1).
Definition filter2 : FilterPtr := mkFilter 2 accept_all (notes 2).

(** A listener with two filters that accept every token. *)
Definition two_filters : Process :=
  after (createFilter accept_all (notes 1) ;;
         createFilter accept_all (notes 2))
        (Process_new []).

(** The line [PING], ended by the default delimiter. *)
Definition ping_line : bytes := lit "PING" ++ [CR].


(** A listener whose first filter has a comparator that throws and whose
    second filter accepts every token, listening on an open port. *)
Definition boom : exn := std_exception "boom".
Definition faulty_filter : FilterPtr := mkFilter 1 (faulty boom) (notes 1).
Definition faulty_first (d : SerialImpl.device) : Process :=
  after (createFilter (faulty boom) (notes 1) ;;
         createFilter accept_all (notes 2) ;;
         startListening open_port)
        (Process_new d).


(** A fresh listener that has been started on an open port. *)
Definition listening_on (d : SerialImpl.device) : Process :=
  after (startListening open_port) (Process_new d).

(** A listener with a default-token handler (the user function 9) and one
    filter, which accepts the token [PONG] only, started on an open port. *)
Definition default_fn : user_fn := mkFn 9 (fun _ => Returns tt).
Definition pong_only (d : SerialImpl.device) : Process :=
  after (setDefaultHandler default_fn ;;
         createFilter (equals (lit "PONG")) (notes 1) ;;
         startListening open_port)
        (Process_new d).

(** The same with a filter for [PING]. *)
Definition ping_filter : FilterPtr := mkFilter 1 (equals (lit "PING")) (notes 1).
Definition ping_only (d : SerialImpl.device) : Process :=
  after (setDefaultHandler default_fn ;;
         createFilter (equals (lit "PING")) (notes 1) ;;
         startListening open_port)
        (Process_new d).


(** The listener [ping_only] after a read cycle on the line [PING]: the
    entry for its filter is on the queue. *)
Definition ping_queued : Process :=
  after (listen 1) (ping_only [SerialImpl.delivers ping_line]).


(** The stream of the scenario of the spec, in two chunks: [AB], a
    delimiter and [CD]; then [EF] and a delimiter. *)
Definition scenario_chunks : list bytes :=
  [lit "AB" ++ [CR] ++ lit "CD"; lit "EF" ++ [CR]].

(** A listener with one filter, which accepts every token, started on an
    open port. *)
Definition one_filter (d : SerialImpl.device) : Process :=
  after (createFilter accept_all (notes 1) ;; startListening open_port)
        (Process_new d).



(** ** The rest of the listener: what its threads may do to the process *)

(** [SerialListener::~SerialListener]. *)
Definition SerialListener_delete (threads : Process -> Process) : M unit :=
  l <- gets listening ;;
  if l then stopListening threads else ret tt.

(** A property of the state in which a method ends, however it ends;
    undefined behaviour leaves no state to speak of. *)
Definition ends_in {A} (R : Process -> Prop) (o : outcome A) : Prop :=
  match o with
  | Ret _ p' | Throw _ p' | Exit _ p' => R p'
  | Undefined => True
  end.

(** An entry for a filter of the registry of [p] and a token the
    comparator of that filter returned [true] for. *)
Definition accepted (p : Process) (e : FilterPtr * TokenPtr) : Prop :=
  In (fst e) (filters (this p))
  /\ comparator_ (fst e) (snd e) = Returns true.

(** [p'] differs from [p] by the work of a producer: entries were added at
    the end of the queue, each of them [accepted]; the buffer, the device
    and the events may have changed, but no user function was called; the
    flag, the port, the registry, the handlers, the tokenizer, the threads
    and the heap are as they were. *)
Definition produced (p p' : Process) : Prop :=
  listening (this p') = listening (this p)
  /\ chunk_size_ (this p') = chunk_size_ (this p)
  /\ serial_port_ (this p') = serial_port_ (this p)
  /\ filters (this p') = filters (this p)
  /\ _default_handler (this p') = _default_handler (this p)
  /\ tokenize (this p') = tokenize (this p)
  /\ listen_thread (this p') = listen_thread (this p)
  /\ callback_thread (this p') = callback_thread (this p)
  /\ heap_top p' = heap_top p
  /\ calls p' = calls p
  /\ exists new,
       callback_queue (this p') = callback_queue (this p) ++ new
       /\ Forall (accepted p) new.

(** Events added to the record, in order. *)
Definition add_events (es : list event) (p : Process) : Process :=
  mkProcess (this p) (dev p) (heap_top p) (events p ++ es).

(** The user function that runs when a [DataCallback] is called, [h] being
    the default-token handler of the listener. *)
Definition callee (h : option user_fn) (cb : DataCallback) : option user_fn :=
  match cb with
  | user f => Some f
  | bound_default_handler => h
  end.

(** The events of the delivery of one entry by [callback]: the line printed
    when it is popped, the call, and the call of the unhandled-exception
    handler if the user function throws. *)
Definition delivery (h : option user_fn) (e : FilterPtr * TokenPtr)
  : list event :=
  Cout (snd e) ::
  match callee h (callback_ (fst e)) with
  | None => []
  | Some f =>
      Called (label f) (snd e) ::
      match run f (snd e) with
      | Returns _ => []
      | Raises x => [HandleExc x]
      end
  end.

(** The user function of the entry returns, or throws an exception derived
    from [std::exception]. *)
Definition contained (h : option user_fn) (e : FilterPtr * TokenPtr) : Prop :=
  match callee h (callback_ (fst e)) with
  | None => True
  | Some f =>
      match run f (snd e) with
      | Returns _ => True
      | Raises x => is_std_exception x = true
      end
  end.

(** The registry holds distinct [Filter] objects, all allocated before the
    next free address. *)
Definition registry_ok (p : Process) : Prop :=
  NoDup (map address (filters (this p)))
  /\ Forall (fun f => address f < heap_top p) (filters (this p)).

(** A turn of the loop of [read] in which [select] times out. *)
Definition silent (q : SerialImpl.poll) : bool :=
  negb (SerialImpl.sel_r q =? -1)%Z && negb (SerialImpl.sel_isset q).

Definition set_tokenize (t : TokenizerType) (l : SerialListener)
  : SerialListener :=
  mkListener (listening l) (chunk_size_ l) (serial_port_ l) (data_buffer l)
    (filters l) (callback_queue l) (_default_handler l) (default_comparator l)
    (default_filter l) t (listen_thread l) (callback_thread l).

(** Modelled from the spec: [setTokenizer], the setter of the pluggable
    tokenizer, which the constructor calls; its definition is in the
    header [serial/serial_listener.h]. *)
Definition setTokenizer (t : TokenizerType) : M unit :=
  modify (set_tokenize t).

(** A user function that throws: [what] a [std::exception], or a string
    literal. *)
Definition throws_std (n : nat) (what : string) : user_fn :=
  mkFn n (fun _ => Raises (std_exception what)).
Definition throws_literal (n : nat) (msg : string) : user_fn :=
  mkFn n (fun _ => Raises (c_string msg)).

(** ** The rest of the byte source: opening, configuring and closing *)

Module Port.

(** The enumerations of the settings are declared in the header
    [serial/serial.h]; the enumerators are the ones [unix.cc] names, and
    [other_bytesize], [other_parity] and [other_stopbits] stand for any
    other value of the type. *)
Inductive bytesize_t : Type :=
| FIVEBITS | SIXBITS | SEVENBITS | EIGHTBITS | other_bytesize.
Inductive parity_t : Type :=
| PARITY_NONE | PARITY_ODD | PARITY_EVEN | other_parity.
Inductive stopbits_t : Type :=
| STOPBITS_ONE | STOPBITS_ONE_POINT_FIVE | STOPBITS_TWO | other_stopbits.

(** A [struct termios]: the four flag words and the control characters.
    Where the platform keeps the speed is left to [cfsetspeed]. *)
Record termios : Type := mkTermios {
  c_iflag : Z;
  c_oflag : Z;
  c_cflag : Z;
  c_lflag : Z;
  c_cc : Z -> Z
}.

(** What [<termios.h>] gives on the platform: the flag macros
    [reconfigurePort] uses, [None] for a macro that is not defined (the
    source tests [IUCLC], [PARMRK] and [IXANY] with [#ifdef]), the macro
    for hardware flow control ([CRTSCTS], or [CNEW_RTSCTS] where that is
    the one defined), the indices [VMIN] and [VTIME], and [cfsetspeed]. *)
Record termios_h : Type := mkTermiosH {
  CLOCAL : Z; CREAD : Z;
  ICANON : Z; ECHO : Z; ECHOE : Z; ECHOK : Z; ECHONL : Z; ISIG : Z; IEXTEN : Z;
  OPOST : Z;
  INLCR : Z; IGNCR : Z; ICRNL : Z; IGNBRK : Z;
  IUCLC : option Z; PARMRK : option Z;
  CSIZE : Z; CS8 : Z; CS7 : Z; CS6 : Z; CS5 : Z;
  CSTOPB : Z;
  INPCK : Z; ISTRIP : Z;
  PARENB : Z; PARODD : Z;
  IXON : Z; IXOFF : Z; IXANY : option Z;
  CRTSCTS : Z;
  VMIN : Z; VTIME : Z;
  cfsetspeed : termios -> Z -> termios
}.

(** The members of [Serial::SerialImpl].  [base] holds the three that
    [read] and [isOpen] use. *)
Record t : Type := mk {
  base : SerialImpl.t;
  port_ : string;
  baudrate_ : Z;
  bytesize_ : bytesize_t;
  parity_ : parity_t;
  stopbits_ : stopbits_t;
  flowcontrol_ : Z;
  interCharTimeout_ : Z;
  xonxoff_ : bool;
  rtscts_ : bool
}.

Definition fd_ (s : t) : Z := SerialImpl.fd_ (base s).
Definition isOpen_ (s : t) : bool := SerialImpl.isOpen_ (base s).

Definition set_fd_ (fd : Z) (s : t) : t :=
  mk (SerialImpl.mk fd (isOpen_ s) (SerialImpl.timeout_ (base s)))
     (port_ s) (baudrate_ s) (bytesize_ s) (parity_ s) (stopbits_ s)
     (flowcontrol_ s) (interCharTimeout_ s) (xonxoff_ s) (rtscts_ s).
Definition set_isOpen_ (b : bool) (s : t) : t :=
  mk (SerialImpl.mk (fd_ s) b (SerialImpl.timeout_ (base s)))
     (port_ s) (baudrate_ s) (bytesize_ s) (parity_ s) (stopbits_ s)
     (flowcontrol_ s) (interCharTimeout_ s) (xonxoff_ s) (rtscts_ s).
Definition set_port_ (port : string) (s : t) : t :=
  mk (base s) port (baudrate_ s) (bytesize_ s) (parity_ s) (stopbits_ s)
     (flowcontrol_ s) (interCharTimeout_ s) (xonxoff_ s) (rtscts_ s).
Definition set_baudrate_ (baudrate : Z) (s : t) : t :=
  mk (base s) (port_ s) baudrate (bytesize_ s) (parity_ s) (stopbits_ s)
     (flowcontrol_ s) (interCharTimeout_ s) (xonxoff_ s) (rtscts_ s).

(** The system calls a method makes, in order. *)
Inductive syscall : Type :=
| sys_open (path : string)
| sys_close (fd : Z)
| sys_tcgetattr (fd : Z)
| sys_tcsetattr (fd : Z) (options : termios)
| sys_ioctl_inq (fd : Z).

(** How a method ends: it returns or throws, with the object as it is then
    and the system calls it made. *)
Inductive ended (A : Type) : Type :=
| finished (a : A) (s : t) (calls : list syscall)
| threw (e : exn) (s : t) (calls : list syscall).
Arguments finished {A} a s calls.
Arguments threw {A} e s calls.

(** [x |= m] and [x &= ~m] on a flag word. *)
Definition set_bits (x m : Z) : Z := Z.lor x m.
Definition clear_bits (x m : Z) : Z := Z.land x (Z.lnot m).

Definition clear_if_defined (x : Z) (m : option Z) : Z :=
  match m with
  | Some m => clear_bits x m
  | None => x
  end.

Definition set_c_cc (i v : Z) (cc : Z -> Z) : Z -> Z :=
  fun j => if (j =? i)%Z then v else cc j.

(** Conversion to [uint8_t]. *)
Definition to_uint8 (z : Z) : Z := z mod 256.

(** [Serial::SerialImpl::reconfigurePort].  [tcgetattr_r] and
    [originalTTYAttrs] are what [tcgetattr] returns and stores. *)
Definition reconfigurePort (h : termios_h) (s : t)
           (tcgetattr_r : Z) (originalTTYAttrs : termios) : ended unit :=
  if (fd_ s =? -1)%Z then threw (c_string "Error") s []
  else
    let vmin := if (interCharTimeout_ s =? -1)%Z then 1%Z else 0%Z in
    let vtime := if (interCharTimeout_ s =? -1)%Z
                 then to_uint8 (interCharTimeout_ s * 10) else 0%Z in
    if (tcgetattr_r =? -1)%Z
    then threw (c_string "Error") s [sys_tcgetattr (fd_ s)]
    else
      let options := originalTTYAttrs in
      (* set up raw mode / no echo / binary *)
      let cflag := set_bits (c_cflag options) (Z.lor (CLOCAL h) (CREAD h)) in
      let lflag :=
        clear_bits (c_lflag options)
          (Z.lor (Z.lor (Z.lor (Z.lor (Z.lor (Z.lor (ICANON h) (ECHO h))
             (ECHOE h)) (ECHOK h)) (ECHONL h)) (ISIG h)) (IEXTEN h)) in
      let oflag := clear_bits (c_oflag options) (OPOST h) in
      let iflag :=
        clear_bits (c_iflag options)
          (Z.lor (Z.lor (Z.lor (INLCR h) (IGNCR h)) (ICRNL h)) (IGNBRK h)) in
      let iflag := clear_if_defined iflag (IUCLC h) in
      let iflag := clear_if_defined iflag (PARMRK h) in
      (* setup baud rate *)
      let options :=
        cfsetspeed h (mkTermios iflag oflag cflag lflag (c_cc options))
          (baudrate_ s) in
      (* setup char len *)
      let cflag := clear_bits (c_cflag options) (CSIZE h) in
      match
        match bytesize_ s with
        | EIGHTBITS => Some (set_bits cflag (CS8 h))
        | SEVENBITS => Some (set_bits cflag (CS7 h))
        | SIXBITS => Some (set_bits cflag (CS6 h))
        | FIVEBITS => Some (set_bits cflag (CS5 h))
        | other_bytesize => None
        end
      with
      | None =>
          threw (c_string "ValueError(Invalid char len: %%r)") s
            [sys_tcgetattr (fd_ s)]
      | Some cflag =>
          (* setup stopbits *)
          match
            match stopbits_ s with
            | STOPBITS_ONE => Some (clear_bits cflag (CSTOPB h))
            | STOPBITS_ONE_POINT_FIVE => Some (set_bits cflag (CSTOPB h))
            | STOPBITS_TWO => Some (set_bits cflag (CSTOPB h))
            | other_stopbits => None
            end
          with
          | None =>
              threw (c_string "ValueError(Invalid stop bit specification:)") s
                [sys_tcgetattr (fd_ s)]
          | Some cflag =>
              (* setup parity *)
              let iflag :=
                clear_bits (c_iflag options) (Z.lor (INPCK h) (ISTRIP h)) in
              match
                match parity_ s with
                | PARITY_NONE =>
                    Some (clear_bits cflag (Z.lor (PARENB h) (PARODD h)))
                | PARITY_EVEN =>
                    Some (set_bits (clear_bits cflag (PARODD h)) (PARENB h))
                | PARITY_ODD =>
                    Some (set_bits cflag (Z.lor (PARENB h) (PARODD h)))
                | other_parity => None
                end
              with
              | None =>
                  threw (c_string "ValueError(Invalid parity:") s
                    [sys_tcgetattr (fd_ s)]
              | Some cflag =>
                  (* setup flow control *)
                  let iflag :=
                    if xonxoff_ s
                    then set_bits iflag (Z.lor (IXON h) (IXOFF h))
                    else
                      match IXANY h with
                      | Some ixany =>
                          clear_bits iflag
                            (Z.lor (Z.lor (IXON h) (IXOFF h)) ixany)
                      | None => clear_bits iflag (Z.lor (IXON h) (IXOFF h))
                      end in
                  let cflag :=
                    if rtscts_ s
                    then set_bits cflag (CRTSCTS h)
                    else clear_bits cflag (CRTSCTS h) in
                  let cc :=
                    set_c_cc (VTIME h) vtime
                      (set_c_cc (VMIN h) vmin (c_cc options)) in
                  finished tt s
                    [sys_tcgetattr (fd_ s);
                     sys_tcsetattr (fd_ s)
                       (mkTermios iflag (c_oflag options) cflag
                          (c_lflag options) cc)]
              end
          end
      end.

(** [Serial::SerialImpl::open].  [open_r] is what [::open] returns. *)
Definition open (h : termios_h) (s : t) (open_r : Z)
           (tcgetattr_r : Z) (originalTTYAttrs : termios) : ended unit :=
  if negb (String.eqb (port_ s) "") then threw (c_string "error") s []
  else if negb (isOpen_ s) then threw (c_string "error") s []
  else
    let s := set_fd_ open_r s in
    if (fd_ s =? -1)%Z then threw (c_string "Error") s [sys_open (port_ s)]
    else
      match reconfigurePort h s tcgetattr_r originalTTYAttrs with
      | finished _ s calls =>
          finished tt (set_isOpen_ true s) (sys_open (port_ s) :: calls)
      | threw e s calls => threw e s (sys_open (port_ s) :: calls)
      end.

(** The constructor.  [xonxoff_] and [rtscts_] are not initialised; they
    have whatever values [xonxoff0] and [rtscts0] are. *)
Definition SerialImpl_new (h : termios_h) (port : string) (baudrate : Z)
           (timeout : Z) (bytesize : bytesize_t) (parity : parity_t)
           (stopbits : stopbits_t) (flowcontrol : Z)
           (xonxoff0 rtscts0 : bool)
           (open_r : Z) (tcgetattr_r : Z) (originalTTYAttrs : termios)
  : ended unit :=
  let s := mk (SerialImpl.mk (-1) false timeout) port baudrate bytesize
              parity stopbits flowcontrol (-1) xonxoff0 rtscts0 in
  if negb (String.eqb (port_ s) "")
  then open h s open_r tcgetattr_r originalTTYAttrs
  else finished tt s [].

(** [Serial::SerialImpl::close]. *)
Definition close (s : t) : ended unit :=
  if isOpen_ s then
    if negb (fd_ s =? -1)%Z
    then finished tt (set_isOpen_ false (set_fd_ (-1) s)) [sys_close (fd_ s)]
    else finished tt (set_isOpen_ false s) []
  else finished tt s [].

(** The destructor. *)
Definition SerialImpl_delete (s : t) : ended unit := close s.

(** [Serial::SerialImpl::isOpen]. *)
Definition isOpen (s : t) : bool := isOpen_ s.

(** [Serial::SerialImpl::available].  [ioctl_r] and [count] are what
    [ioctl] returns and stores; the [int] is returned as a [size_t]. *)
Definition available (s : t) (ioctl_r count : Z) : ended Z :=
  if negb (isOpen_ s) then finished 0%Z s []
  else if (ioctl_r =? 0)%Z
       then finished (SerialImpl.to_size_t count) s [sys_ioctl_inq (fd_ s)]
       else threw (c_string "Error") s [sys_ioctl_inq (fd_ s)].

(** [Serial::SerialImpl::read], on the object. *)
Definition read (s : t) (size : nat) (d : SerialImpl.device)
  : SerialImpl.ending :=
  SerialImpl.read (base s) size d.

(** [setPort], [getPort], [setBaudrate] and [getBaudrate]. *)
Definition setPort (port : string) (s : t) : t := set_port_ port s.
Definition getPort (s : t) : string := port_ s.
Definition setBaudrate (h : termios_h) (baudrate : Z) (s : t)
           (tcgetattr_r : Z) (originalTTYAttrs : termios) : ended unit :=
  reconfigurePort h (set_baudrate_ baudrate s) tcgetattr_r originalTTYAttrs.
Definition getBaudrate (s : t) : Z := baudrate_ s.

(** The object, the exception and the system calls a method ends with. *)
Definition object {A} (r : ended A) : t :=
  match r with
  | finished _ s _ | threw _ s _ => s
  end.
Definition syscalls {A} (r : ended A) : list syscall :=
  match r with
  | finished _ _ calls | threw _ _ calls => calls
  end.
Definition thrown {A} (r : ended A) : option exn :=
  match r with
  | finished _ _ _ => None
  | threw e _ _ => Some e
  end.

(** The options handed to [tcsetattr], if it was called. *)
Definition installed (calls : list syscall) : option termios :=
  match List.filter (fun c => match c with sys_tcsetattr _ _ => true
                                         | _ => false end) calls with
  | sys_tcsetattr _ o :: _ => Some o
  | _ => None
  end.

(** The macros as Linux defines them, with a [cfsetspeed] that rejects
    the speed and leaves the options alone. *)
Definition linux : termios_h :=
  {| CLOCAL := 2048; CREAD := 128;
     ICANON := 2; ECHO := 8; ECHOE := 16; ECHOK := 32; ECHONL := 64;
     ISIG := 1; IEXTEN := 32768;
     OPOST := 1;
     INLCR := 64; IGNCR := 128; ICRNL := 256; IGNBRK := 1;
     IUCLC := Some 512%Z; PARMRK := Some 8%Z;
     CSIZE := 48; CS8 := 48; CS7 := 32; CS6 := 16; CS5 := 0;
     CSTOPB := 64;
     INPCK := 16; ISTRIP := 32;
     PARENB := 256; PARODD := 512;
     IXON := 1024; IXOFF := 4096; IXANY := Some 2048%Z;
     CRTSCTS := 2147483648;
     VMIN := 6; VTIME := 5;
     cfsetspeed := fun options _ => options |}.

(** A terminal in cooked mode, as [tcgetattr] may report it. *)
Definition cooked : termios :=
  mkTermios 1280 5 191 35387 (fun _ => 0%Z).

(** A port object with a descriptor, as the constructor would set the
    other members for 9600 baud, eight bits, no parity, one stop bit. *)
Definition port_8N1 (fd : Z) (is_open : bool) : t :=
  mk (SerialImpl.mk fd is_open 1000) "" 9600 EIGHTBITS PARITY_NONE
     STOPBITS_ONE 0 (-1) false false.

(** The settings [reconfigurePort] accepts. *)
Definition valid_settings (s : t) : bool :=
  match bytesize_ s with other_bytesize => false | _ => true end
  && match stopbits_ s with other_stopbits => false | _ => true end
  && match parity_ s with other_parity => false | _ => true end.

(** [cfsetspeed] leaves the local flags, the output flags and the control
    characters alone. *)
Definition cfsetspeed_keeps (h : termios_h) : Prop :=
  forall o b,
    c_lflag (cfsetspeed h o b) = c_lflag o
    /\ c_oflag (cfsetspeed h o b) = c_oflag o
    /\ c_cc (cfsetspeed h o b) = c_cc o.

(** The fields of [c_cflag] for the character size, the stop bits, the
    parity and the hardware flow control do not overlap, and the four
    character sizes are values of the size field. *)
Definition cflag_fields_apart (h : termios_h) : Prop :=
  Z.land (CS5 h) (CSIZE h) = CS5 h
  /\ Z.land (CS6 h) (CSIZE h) = CS6 h
  /\ Z.land (CS7 h) (CSIZE h) = CS7 h
  /\ Z.land (CS8 h) (CSIZE h) = CS8 h
  /\ Z.land (CSTOPB h) (CSIZE h) = 0%Z
  /\ Z.land (PARENB h) (CSIZE h) = 0%Z
  /\ Z.land (PARODD h) (CSIZE h) = 0%Z
  /\ Z.land (CRTSCTS h) (CSIZE h) = 0%Z
  /\ Z.land (PARENB h) (CSTOPB h) = 0%Z
  /\ Z.land (PARODD h) (CSTOPB h) = 0%Z
  /\ Z.land (CRTSCTS h) (CSTOPB h) = 0%Z
  /\ Z.land (PARENB h) (PARODD h) = 0%Z
  /\ Z.land (CRTSCTS h) (PARENB h) = 0%Z
  /\ Z.land (CRTSCTS h) (PARODD h) = 0%Z.

(** The value of the size field for a character size [reconfigurePort]
    accepts. *)
Definition size_bits (h : termios_h) (b : bytesize_t) : Z :=
  match b with
  | FIVEBITS => CS5 h
  | SIXBITS => CS6 h
  | SEVENBITS => CS7 h
  | EIGHTBITS | other_bytesize => CS8 h
  end.

End Port.

(** What one turn of the loop of [read] adds to the message. *)
Definition payload (q : SerialImpl.poll) : bytes :=
  if (SerialImpl.sel_r q =? -1)%Z then []
  else if SerialImpl.sel_isset q
       then firstn (Z.to_nat (SerialImpl.to_size_t (SerialImpl.rd_n q)))
                   (SerialImpl.buf_after (SerialImpl.rd_buf q))
       else [].

(** * Properties *)

(** ** The tokenizer *)

Section Tokenizer.

Variable d : bytes.

Lemma strip_prefix_Some (p s r : bytes) :
  strip_prefix p s = Some r <-> s = p ++ r.
Proof.
  revert s; induction p as [|a p IH]; intros s; simpl.
  - split; [intros [= ->]; reflexivity | intros ->; reflexivity].
  - destruct s as [|b s]; [split; discriminate|].
    destruct (Ascii.eqb_spec a b) as [->|Hab].
    + rewrite IH. split; [intros ->; reflexivity | intros [= ->]; reflexivity].
    + split; [discriminate | intros H; inversion H; subst; contradiction].
Qed.

Lemma strip_suffix_Some (s p : bytes) :
  strip_suffix d s = Some p <-> s = p ++ d.
Proof.
  unfold strip_suffix.
  destruct (strip_prefix (rev d) (rev s)) as [r|] eqn:E; simpl.
  - apply strip_prefix_Some in E.
    assert (Hs : s = rev r ++ d).
    { rewrite <- (rev_involutive s), E, rev_app_distr, rev_involutive.
      reflexivity. }
    split.
    + intros [= <-]; exact Hs.
    + intros Hp. rewrite Hs in Hp. apply app_inv_tail in Hp. f_equal. exact Hp.
  - split; [discriminate|]. intros ->.
    rewrite rev_app_distr in E.
    assert (H : strip_prefix (rev d) (rev d ++ rev p) = Some (rev p))
      by (apply strip_prefix_Some; reflexivity).
    congruence.
Qed.

Lemma split_from_not_nil (cur s : bytes) : split_from d cur s <> [].
Proof.
  revert cur; induction s as [|c s IH]; intros cur; simpl.
  - discriminate.
  - destruct (strip_suffix d (cur ++ [c])); [discriminate | apply IH].
Qed.

Lemma delimiter_free_nil : delimiter_free d [].
Proof.
  intros p q H Hp. symmetry in H. apply app_eq_nil in H. tauto.
Qed.

Lemma delimiter_free_snoc (cur : bytes) (c : ascii) :
  delimiter_free d cur -> strip_suffix d (cur ++ [c]) = None ->
  delimiter_free d (cur ++ [c]).
Proof.
  intros Hcur Hc p q H Hp.
  destruct q as [|x q] using rev_ind.
  - rewrite app_nil_r in H. subst p. exact Hc.
  - clear IHq. rewrite app_assoc in H. apply app_inj_tail in H.
    destruct H as [H _]. exact (Hcur p q H Hp).
Qed.

(** Scanning a fragment again gives the fragment back. *)
Lemma split_from_rescan (pre x s : bytes) :
  delimiter_free d (pre ++ x) ->
  split_from d pre (x ++ s) = split_from d (pre ++ x) s.
Proof.
  revert pre; induction x as [|c x IH]; intros pre Hfree; simpl.
  - rewrite app_nil_r. reflexivity.
  - replace (pre ++ c :: x) with ((pre ++ [c]) ++ x) in *
      by (rewrite <- app_assoc; reflexivity).
    rewrite (Hfree (pre ++ [c]) x eq_refl).
    + apply IH. exact Hfree.
    + intros H. apply app_eq_nil in H. destruct H; discriminate.
Qed.

(** Cutting the input in two: the tokens completed in the first part,
    then the scan of what the first part left followed by the second
    part. *)
Lemma split_from_app (cur a b : bytes) :
  delimiter_free d cur ->
  split_from d cur (a ++ b) =
  completed (split_from d cur a)
    ++ split_from d [] (remainder (split_from d cur a) ++ b).
Proof.
  unfold completed, remainder.
  revert cur; induction a as [|c a IH]; intros cur Hfree.
  - simpl. symmetry. apply (split_from_rescan [] cur b). exact Hfree.
  - simpl. destruct (strip_suffix d (cur ++ [c])) as [token|] eqn:E.
    + pose proof (split_from_not_nil [] a) as Hne.
      destruct (split_from d [] a) as [|t l] eqn:Ea; [congruence|].
      rewrite <- Ea in *. rewrite (IH [] delimiter_free_nil).
      rewrite Ea. reflexivity.
    + apply IH. apply delimiter_free_snoc; assumption.
Qed.

Lemma tokenizer_app (a b : bytes) :
  delimeter_tokenizer d (a ++ b) =
  completed (delimeter_tokenizer d a)
    ++ delimeter_tokenizer d (remainder (delimeter_tokenizer d a) ++ b).
Proof. apply split_from_app, delimiter_free_nil. Qed.

Lemma tokenizer_not_nil (s : bytes) : delimeter_tokenizer d s <> [].
Proof. apply split_from_not_nil. Qed.

Lemma join_cons (x : bytes) (l : list bytes) :
  l <> [] -> join d (x :: l) = x ++ d ++ join d l.
Proof. destruct l; [congruence | reflexivity]. Qed.

(** The delimiter between the tokens gives the input back. *)
Lemma join_split_from (cur s : bytes) :
  join d (split_from d cur s) = cur ++ s.
Proof.
  revert cur; induction s as [|c s IH]; intros cur; simpl.
  - rewrite app_nil_r. reflexivity.
  - destruct (strip_suffix d (cur ++ [c])) as [token|] eqn:E.
    + apply strip_suffix_Some in E.
      rewrite join_cons by apply split_from_not_nil.
      rewrite IH. simpl.
      replace (cur ++ c :: s) with ((cur ++ [c]) ++ s)
        by (rewrite <- app_assoc; reflexivity).
      rewrite E, <- app_assoc. reflexivity.
    + rewrite IH, <- app_assoc. reflexivity.
Qed.

(** Without a delimiter in the buffer there is no completed token: the
    whole buffer is the remainder. *)
Lemma no_delimiter_no_token (s : bytes) :
  delimiter_free d s -> delimeter_tokenizer d s = [s].
Proof.
  intros H. unfold delimeter_tokenizer.
  rewrite <- (app_nil_r s) at 1.
  rewrite (split_from_rescan [] s []) by exact H. reflexivity.
Qed.

Lemma delimiter_free_prefix (p q : bytes) :
  delimiter_free d (p ++ q) -> delimiter_free d p.
Proof.
  intros H a b Hab Ha. apply (H a (b ++ q)); [|exact Ha].
  rewrite Hab, <- app_assoc. reflexivity.
Qed.

(** No element of the result contains the delimiter, if the delimiter is
    not empty: with [join_split_from], the result is the input cut at the
    occurrences of the delimiter, leftmost first. *)
Lemma split_from_delimiter_free (cur s : bytes) :
  d <> [] -> delimiter_free d cur ->
  Forall (delimiter_free d) (split_from d cur s).
Proof.
  intros Hd. revert cur. induction s as [|c s IH]; intros cur Hfree; simpl.
  - constructor; [exact Hfree | constructor].
  - destruct (strip_suffix d (cur ++ [c])) as [token|] eqn:E.
    + constructor; [|apply IH, delimiter_free_nil].
      apply strip_suffix_Some in E.
      destruct (exists_last Hd) as (d' & x & Hdx).
      rewrite Hdx, app_assoc in E. apply app_inj_tail in E. destruct E as [E _].
      rewrite E in Hfree. exact (delimiter_free_prefix _ _ Hfree).
    + apply IH, delimiter_free_snoc; assumption.
Qed.

End Tokenizer.

Lemma completed_app (l1 l2 : list TokenPtr) :
  l2 <> [] -> completed (l1 ++ l2) = l1 ++ completed l2.
Proof. intros H. apply removelast_app, H. Qed.

Lemma remainder_app (l1 l2 : list TokenPtr) :
  l2 <> [] -> remainder (l1 ++ l2) = remainder l2.
Proof.
  intros H. unfold remainder.
  induction l1 as [|x l1 IH]; simpl; [reflexivity|].
  destruct (l1 ++ l2) eqn:E; [|exact IH].
  apply app_eq_nil in E. tauto.
Qed.

(** ** The sweep of the filters over a batch of tokens *)

Lemma push_all_nil (p : Process) : push_all [] p = p.
Proof.
  destruct p as [[] ? ? ?]. unfold push_all, upd_this, set_callback_queue.
  simpl. rewrite app_nil_r. reflexivity.
Qed.

Lemma push_all_app (a b : queue) (p : Process) :
  push_all b (push_all a p) = push_all (a ++ b) p.
Proof.
  unfold push_all, upd_this, set_callback_queue. simpl.
  rewrite app_assoc. reflexivity.
Qed.

Lemma push_one (e : FilterPtr * TokenPtr) (p : Process) :
  upd_this (fun l => set_callback_queue (queue_push e (callback_queue l)) l) p
  = push_all [e] p.
Proof. reflexivity. Qed.

Lemma quiet_cons (f : FilterPtr) (t : bytes) (ts : list bytes) :
  quiet f (t :: ts) ->
  (exists b, comparator_ f t = Returns b) /\ quiet f ts.
Proof.
  intros H. split; [apply H; left; reflexivity|].
  intros x Hx. apply H. right. exact Hx.
Qed.

(** One filter whose comparator returns on every completed token: its
    matches are pushed in the order of the tokens. *)
Lemma filter_quiet (f : FilterPtr) (tokens : list TokenPtr) (p : Process) :
  quiet f (completed tokens) ->
  filter f tokens p = Ret tt (push_all (matches_of (completed tokens) f) p).
Proof.
  unfold filter, completed, matches_of. revert p.
  induction tokens as [|t rest IH]; intros p Hq.
  - simpl. rewrite push_all_nil. reflexivity.
  - destruct rest as [|t' rest'].
    + simpl. rewrite push_all_nil. reflexivity.
    + change (removelast (t :: t' :: rest'))
        with (t :: removelast (t' :: rest')) in *.
      apply quiet_cons in Hq. destruct Hq as [[b Hb] Hq].
      cbn [filter_from]. unfold bind at 1. unfold bind at 1.
      rewrite Hb. cbn [of_result ret].
      cbn [List.filter map]. unfold matches at 1. rewrite Hb.
      destruct b.
      * unfold bind at 1, modify. rewrite push_one.
        rewrite (IH _ Hq), push_all_app. reflexivity.
      * unfold bind at 1, ret. rewrite (IH _ Hq). reflexivity.
Qed.

Lemma for_each_filter_quiet (fs : list FilterPtr) (tokens : list TokenPtr)
      (p : Process) :
  (forall f, In f fs -> quiet f (completed tokens)) ->
  for_each_filter fs tokens p =
  Ret tt (push_all (flat_map (matches_of (completed tokens)) fs) p).
Proof.
  revert p. induction fs as [|f fs IH]; intros p Hq.
  - simpl. rewrite push_all_nil. reflexivity.
  - cbn [for_each_filter flat_map]. unfold bind at 1.
    rewrite filter_quiet by (apply Hq; left; reflexivity).
    rewrite IH by (intros g Hg; apply Hq; right; exact Hg).
    rewrite push_all_app. reflexivity.
Qed.

(** A batch on which no comparator throws. *)
Lemma filterNewTokens_quiet (new_tokens : list TokenPtr) (p : Process) :
  new_tokens <> [] ->
  (forall f, In f (filters (this p)) -> quiet f (completed new_tokens)) ->
  filterNewTokens new_tokens p =
  Ret tt
    (upd_this (set_data_buffer (remainder new_tokens))
       (push_all
          (flat_map (matches_of (completed new_tokens)) (filters (this p)))
          p)).
Proof.
  intros Hne Hq. unfold filterNewTokens, bind, gets.
  rewrite for_each_filter_quiet by exact Hq.
  destruct new_tokens; [congruence | reflexivity].
Qed.

(** In a filter-major queue, an entry of an earlier filter comes before an
    entry of a later filter. *)
Lemma flat_map_in_order {A B} (M : A -> list B) (l1 : list A) (f : A)
      (l2 : list A) (g : A) (l3 : list A) (x y : B) :
  In x (M f) -> In y (M g) ->
  exists q1 q2 q3,
    flat_map M (l1 ++ f :: l2 ++ g :: l3) = q1 ++ x :: q2 ++ y :: q3.
Proof.
  intros Hx Hy.
  apply in_split in Hx. destruct Hx as (a & b & Hx).
  apply in_split in Hy. destruct Hy as (c & e & Hy).
  exists (flat_map M l1 ++ a), (b ++ flat_map M l2 ++ c), (e ++ flat_map M l3).
  rewrite flat_map_app. cbn [flat_map]. rewrite flat_map_app. cbn [flat_map].
  rewrite Hx, Hy. repeat rewrite <- app_assoc. cbn [app].
  repeat rewrite <- app_assoc. reflexivity.
Qed.

Lemma in_matches_of (tokens : list TokenPtr) (f : FilterPtr) (t : TokenPtr) :
  In t tokens -> matches f t = true -> In (f, t) (matches_of tokens f).
Proof.
  intros Ht Hm. unfold matches_of. apply in_map. apply filter_In. tauto.
Qed.

(** C1, as amended: [filterNewTokens] enqueues a batch filter by filter.
    When no comparator throws, the entries pushed are, for each registered
    filter in registration order, the completed tokens that filter matches,
    in the order of the tokens; the last element of the batch becomes the
    buffer.  For a single token, then, the entry of a filter registered
    earlier comes before the entry of a filter registered later. *)
Theorem filterNewTokens_filter_major
        (new_tokens : list TokenPtr) (p : Process) :
  new_tokens <> [] ->
  (forall f, In f (filters (this p)) -> quiet f (completed new_tokens)) ->
  filterNewTokens new_tokens p =
  Ret tt
    (upd_this (set_data_buffer (remainder new_tokens))
       (push_all
          (flat_map (matches_of (completed new_tokens)) (filters (this p)))
          p))
  /\ forall l1 f l2 g l3 t,
       filters (this p) = l1 ++ f :: l2 ++ g :: l3 ->
       In t (completed new_tokens) ->
       matches f t = true -> matches g t = true ->
       exists q1 q2 q3,
         flat_map (matches_of (completed new_tokens)) (filters (this p))
         = q1 ++ (f, t) :: q2 ++ (g, t) :: q3.
Proof.
  intros Hne Hq. split.
  - unfold filterNewTokens, bind, gets.
    rewrite (for_each_filter_quiet (filters (this p)) new_tokens p Hq).
    destruct new_tokens as [|t rest]; [congruence|].
    reflexivity.
  - intros l1 f l2 g l3 t Hfs Ht Hf Hg. rewrite Hfs.
    apply flat_map_in_order; apply in_matches_of; assumption.
Qed.

(** At the registry [filter1; filter2] and the batch [A], [B] with an empty
    remainder, the match of [filter2] for [A] is queued after the match of
    [filter1] for [B]. *)
Lemma filterNewTokens_not_token_major :
  exists p',
    filterNewTokens [lit "A"; lit "B"; []] two_filters = Ret tt p' /\
    nth_error (callback_queue (this p')) 1 = Some (filter1, lit "B") /\
    nth_error (callback_queue (this p')) 2 = Some (filter2, lit "A") /\
    callback_queue (this p') <>
    callback_queue (this two_filters)
      ++ token_major (filters (this two_filters)) [lit "A"; lit "B"; []].
Proof.
  eexists. split; [reflexivity|]. split; [reflexivity|].
  split; [reflexivity|]. cbv. discriminate.
Qed.

(** The theorem at the same registry and batch. *)
Lemma filterNewTokens_filter_major_witness :
  filterNewTokens [lit "A"; lit "B"; []] two_filters =
  Ret tt
    (upd_this (set_data_buffer [])
       (push_all
          [(filter1, lit "A"); (filter1, lit "B");
           (filter2, lit "A"); (filter2, lit "B")]
          two_filters)).
Proof.
  destruct (filterNewTokens_filter_major [lit "A"; lit "B"; []] two_filters)
    as [H _].
  - discriminate.
  - intros f Hf t _. exists true. destruct Hf as [<-|[<-|[]]]; reflexivity.
  - exact H.
Defined.

(** ** A comparator that throws *)

(** One turn of the loop of [filter], on a token that is not the last
    element of the vector. *)
Lemma filter_from_step (f : FilterPtr) (t t' : TokenPtr)
      (rest : list TokenPtr) (p : Process) :
  filter_from f (t :: t' :: rest) p =
  match comparator_ f t with
  | Returns true => filter_from f (t' :: rest) (push_all [(f, t)] p)
  | Returns false => filter_from f (t' :: rest) p
  | Raises e => Throw e p
  end.
Proof.
  cbn [filter_from]. unfold bind at 1. unfold bind at 1.
  destruct (comparator_ f t) as [[]|e]; reflexivity.
Qed.

(** The sweep of one filter stops at the first token on which its
    comparator throws; the entries pushed before stay on the queue. *)
Lemma filter_throws (f : FilterPtr) (ts1 : list TokenPtr) (t : TokenPtr)
      (ts2 : list TokenPtr) (e : exn) (p : Process) :
  ts2 <> [] -> quiet f ts1 -> comparator_ f t = Raises e ->
  filter f (ts1 ++ t :: ts2) p = Throw e (push_all (matches_of ts1 f) p).
Proof.
  unfold filter, matches_of. intros Hne. revert p.
  induction ts1 as [|x ts1 IH]; intros p Hq He.
  - destruct ts2 as [|r ts2]; [congruence|].
    cbn [app]. rewrite filter_from_step, He.
    cbn. rewrite push_all_nil. reflexivity.
  - apply quiet_cons in Hq. destruct Hq as [[b Hb] Hq].
    cbn [app List.filter map]. unfold matches at 1. rewrite Hb.
    destruct (ts1 ++ t :: ts2) as [|y rest] eqn:E.
    { destruct ts1; discriminate. }
    rewrite filter_from_step, Hb.
    destruct b; rewrite (IH _ Hq He); [rewrite push_all_app|]; reflexivity.
Qed.

(** The sweep of the registry stops with it: the filters registered after
    [f] are not run, and [data_buffer] is not set to the remainder. *)
Lemma filterNewTokens_throws (fs1 : list FilterPtr) (f : FilterPtr)
      (fs2 : list FilterPtr) (ts1 : list TokenPtr) (t : TokenPtr)
      (ts2 : list TokenPtr) (e : exn) (p : Process) :
  filters (this p) = fs1 ++ f :: fs2 ->
  ts2 <> [] ->
  (forall g, In g fs1 -> quiet g (completed (ts1 ++ t :: ts2))) ->
  quiet f ts1 -> comparator_ f t = Raises e ->
  filterNewTokens (ts1 ++ t :: ts2) p =
  Throw e
    (push_all
       (flat_map (matches_of (completed (ts1 ++ t :: ts2))) fs1
          ++ matches_of ts1 f) p).
Proof.
  intros Hfs Hne Hq1 Hq He. unfold filterNewTokens, bind at 1, gets.
  rewrite Hfs. clear Hfs. unfold bind at 1.
  assert (H : for_each_filter (fs1 ++ f :: fs2) (ts1 ++ t :: ts2) p =
              Throw e
                (push_all
                   (flat_map (matches_of (completed (ts1 ++ t :: ts2))) fs1
                      ++ matches_of ts1 f) p)).
  { revert p. induction fs1 as [|g fs1 IH]; intros p.
    - cbn [app for_each_filter flat_map]. unfold bind at 1.
      rewrite (filter_throws f ts1 t ts2 e p Hne Hq He). reflexivity.
    - cbn [app for_each_filter flat_map]. unfold bind at 1.
      rewrite filter_quiet by (apply Hq1; left; reflexivity).
      rewrite IH by (intros h Hh; apply Hq1; right; exact Hh).
      rewrite push_all_app, app_assoc. reflexivity. }
  rewrite H. reflexivity.
Qed.

(** ** Reading from the device *)

Lemma firstn_buf_after (data : bytes) :
  length data <= 1024 ->
  firstn (length data) (SerialImpl.buf_after data) = data.
Proof.
  intros H. unfold SerialImpl.buf_after.
  rewrite firstn_firstn, Nat.min_l by exact H.
  rewrite firstn_app, Nat.sub_diag, firstn_all, firstn_O, app_nil_r.
  reflexivity.
Qed.

(** The loop of [read] ends once the message has the size asked for. *)
Lemma read_loop_done (size : nat) (message : bytes) (d : SerialImpl.device) :
  size <= length message ->
  SerialImpl.read_loop size message d = SerialImpl.Returned message d.
Proof.
  intros H. destruct d; cbn [SerialImpl.read_loop];
    destruct (Nat.ltb_spec (length message) size); try lia; reflexivity.
Qed.

(** A device that has [data] ready, at least as much as is asked for,
    hands all of it to [read]. *)
Lemma read_delivers (s : SerialImpl.t) (size : nat) (data : bytes)
      (rest : SerialImpl.device) :
  SerialImpl.isOpen_ s = true ->
  0 < size -> size <= length data -> length data <= 1024 ->
  SerialImpl.read s size (SerialImpl.delivers data :: rest) =
  SerialImpl.Returned data rest.
Proof.
  intros Hopen Hpos Hsize Hlen. unfold SerialImpl.read. rewrite Hopen.
  cbn [negb SerialImpl.read_loop length].
  destruct (Nat.ltb_spec 0 size) as [_|]; [|lia].
  cbn [SerialImpl.delivers SerialImpl.sel_r SerialImpl.sel_errno
       SerialImpl.sel_isset SerialImpl.rd_n SerialImpl.rd_buf].
  cbn [Z.eqb andb Pos.eqb].
  assert (Hz : SerialImpl.to_size_t (Z.of_nat (length data))
               = Z.of_nat (length data)).
  { unfold SerialImpl.to_size_t. apply Z.mod_small. lia. }
  rewrite Hz.
  destruct (Z.ltb_spec (Z.of_nat (length data)) 1); [lia|].
  destruct (Z.leb_spec (Z.of_nat (length data)) 1024); [|lia].
  rewrite Nat2Z.id, firstn_buf_after by exact Hlen.
  cbn [app]. apply read_loop_done. exact Hsize.
Qed.

(** ** One read cycle *)

Lemma listen_on_data (temp : bytes) (p : Process) :
  temp <> [] ->
  listen_on temp p =
  filterNewTokens (tokenize (this p) (data_buffer (this p) ++ temp))
    (upd_this (set_data_buffer (data_buffer (this p) ++ temp)) p).
Proof.
  intros H. destruct temp as [|c temp]; [congruence|]. reflexivity.
Qed.

Lemma listen_on_nothing (p : Process) : listen_on [] p = Ret tt p.
Proof. reflexivity. Qed.

(** A read cycle on a device that has [data] ready. *)
Lemma listen_cycle_delivers (s : SerialImpl.t) (data : bytes)
      (rest : SerialImpl.device) (p : Process) :
  serial_port_ (this p) = Some s -> SerialImpl.isOpen_ s = true ->
  dev p = SerialImpl.delivers data :: rest ->
  0 < chunk_size_ (this p) -> chunk_size_ (this p) <= length data ->
  length data <= 1024 ->
  listen_cycle p = listen_on data (set_dev rest p).
Proof.
  intros Hport Hopen Hdev Hpos Hsize Hlen.
  unfold listen_cycle, determineAmountToRead, readSomeData, bind, gets.
  rewrite Hport. unfold SerialImpl.isOpen. rewrite Hopen.
  unfold ret, port_read. change (negb true) with false. cbv beta iota. rewrite Hdev.
  rewrite (read_delivers s _ data rest Hopen Hpos Hsize Hlen). reflexivity.
Qed.

Lemma listen_loop_S (n : nat) (p : Process) :
  listening (this p) = true ->
  listen_loop (S n) p = (listen_cycle ;; listen_loop n) p.
Proof.
  intros H. cbn [listen_loop]. unfold bind at 1, gets. rewrite H. reflexivity.
Qed.

(** C2, as amended: a comparator that throws ends the sweep and the
    producer loop.  When, in a read cycle, the comparator of a registered
    filter [f] throws an exception derived from [std::exception] on a
    completed token [t], [f] being the first filter and [t] its first token
    for which that happens, no filter registered after [f] is run and [f]
    sees no token after [t]; the entries pushed until then stay on the
    queue, [data_buffer] keeps the whole buffer, the exception is handed to
    the unhandled-exception handler as a [SerialListenerException], and
    [listen] has left its loop. *)
Theorem comparator_exception_ends_listen
        (n : nat) (p : Process) (s : SerialImpl.t) (data : bytes)
        (rest : SerialImpl.device)
        (fs1 : list FilterPtr) (f : FilterPtr) (fs2 : list FilterPtr)
        (ts1 : list TokenPtr) (t : TokenPtr) (ts2 : list TokenPtr)
        (e : exn) :
  listening (this p) = true ->
  serial_port_ (this p) = Some s -> SerialImpl.isOpen_ s = true ->
  dev p = SerialImpl.delivers data :: rest ->
  0 < chunk_size_ (this p) -> chunk_size_ (this p) <= length data ->
  length data <= 1024 ->
  filters (this p) = fs1 ++ f :: fs2 ->
  tokenize (this p) (data_buffer (this p) ++ data) = ts1 ++ t :: ts2 ->
  ts2 <> [] ->
  (forall g, In g fs1 -> quiet g (completed (ts1 ++ t :: ts2))) ->
  quiet f ts1 ->
  comparator_ f t = Raises e ->
  is_std_exception e = true ->
  listen (S n) p =
  Ret left_loop
    (add_event (HandleExc (SerialListenerException (what e)))
       (push_all
          (flat_map (matches_of (completed (ts1 ++ t :: ts2))) fs1
             ++ matches_of ts1 f)
          (upd_this (set_data_buffer (data_buffer (this p) ++ data))
             (set_dev rest p)))).
Proof.
  intros Hl Hport Hopen Hdev Hpos Hsize Hlen Hfs Htok Hne Hq1 Hq He Hstd.
  assert (Hdata : data <> []).
  { intros ->. simpl in Hsize. lia. }
  unfold listen, try_catch_std.
  rewrite (listen_loop_S n p Hl). unfold bind at 1.
  rewrite (listen_cycle_delivers s data rest p Hport Hopen Hdev Hpos Hsize Hlen).
  rewrite (listen_on_data data _ Hdata).
  change (this (set_dev rest p)) with (this p). rewrite Htok.
  rewrite (filterNewTokens_throws fs1 f fs2 ts1 t ts2 e
             (upd_this (set_data_buffer (data_buffer (this p) ++ data))
                (set_dev rest p)) Hfs Hne Hq1 Hq He).
  rewrite Hstd. reflexivity.
Qed.

(** With the registry [faulty_filter; filter2] and the line [PING] ready on
    the port: the sweep throws instead of going on to [filter2], which
    accepts every token and gets no entry; the handler called is the
    unhandled-exception handler, not the warning handler; and [listen] has
    left its loop, with cycles to spare and the flag still set. *)
Lemma comparator_exception_not_isolated :
  filterNewTokens [lit "PING"; []] (faulty_first []) =
    Throw boom (faulty_first [])
  /\ exists p',
       listen 3 (faulty_first [SerialImpl.delivers ping_line])
         = Ret left_loop p'
       /\ filters (this p') = [faulty_filter; filter2]
       /\ callback_queue (this p') = []
       /\ events p' = [HandleExc (SerialListenerException "boom")]
       /\ listening (this p') = true.
Proof.
  split; [reflexivity|]. eexists. repeat split; reflexivity.
Qed.

(** The theorem at the same listener and line. *)
Lemma comparator_exception_ends_listen_witness :
  listen 3 (faulty_first [SerialImpl.delivers ping_line]) =
  Ret left_loop
    (add_event (HandleExc (SerialListenerException "boom"))
       (upd_this (set_data_buffer ping_line)
          (set_dev [] (faulty_first [SerialImpl.delivers ping_line])))).
Proof.
  apply (comparator_exception_ends_listen
           2 (faulty_first [SerialImpl.delivers ping_line]) open_port
           ping_line [] [] faulty_filter [filter2] [] (lit "PING") [[]] boom);
    try reflexivity.
  - simpl. lia.
  - simpl. lia.
  - discriminate.
  - intros g [].
  - intros t [].
Defined.

(** ** Errors of the byte source *)

(** An exception that is not a [std::exception] passes through the handler
    of [listen] and leaves the thread function. *)
Lemma listen_passes_c_string (n : nat) (p p' : Process) (msg : string) :
  listen_loop n p = Throw (c_string msg) p' ->
  listen n p = Throw (c_string msg) p'.
Proof. intros H. unfold listen, try_catch_std. rewrite H. reflexivity. Qed.

(** A [std::exception] is handed to the unhandled-exception handler, and
    [listen] returns. *)
Lemma listen_catches_std (n : nat) (p p' : Process) (e : exn) :
  listen_loop n p = Throw e p' -> is_std_exception e = true ->
  listen n p =
  Ret left_loop (add_event (HandleExc (SerialListenerException (what e))) p').
Proof.
  intros H Hstd. unfold listen, try_catch_std. rewrite H, Hstd. reflexivity.
Qed.

(** Whatever [read] throws is a string literal, which the handler of
    [listen] does not accept. *)
Lemma read_throws_literal (s : SerialImpl.t) (size : nat)
      (d : SerialImpl.device) (e : exn) (rest : SerialImpl.device) :
  SerialImpl.read s size d = SerialImpl.Thrown e rest ->
  is_std_exception e = false.
Proof.
  unfold SerialImpl.read.
  destruct (negb (SerialImpl.isOpen_ s)); [intros [= <- _]; reflexivity|].
  generalize (@nil ascii) as message.
  induction d as [|q d IH]; intros message; cbn [SerialImpl.read_loop].
  - destruct (length message <? size); discriminate.
  - destruct (length message <? size); [|discriminate].
    destruct ((SerialImpl.sel_r q =? -1)%Z
              && (SerialImpl.sel_errno q =? SerialImpl.EINTR)%Z); [apply IH|].
    destruct (SerialImpl.sel_r q =? -1)%Z; [discriminate|].
    destruct (SerialImpl.sel_isset q); [|discriminate].
    destruct (SerialImpl.to_size_t (SerialImpl.rd_n q) <? 1)%Z;
      [intros [= <- _]; reflexivity|].
    destruct (SerialImpl.to_size_t (SerialImpl.rd_n q) <=? 1024)%Z;
      [apply IH | discriminate].
Qed.

(** So every exception of [read] on the open port of a listening listener
    leaves [listen]: the loop is left by the exception, no handler is
    called and the flag is not written. *)
Lemma read_error_escapes_listen (n : nat) (p : Process) (s : SerialImpl.t)
      (e : exn) (rest : SerialImpl.device) :
  listening (this p) = true ->
  serial_port_ (this p) = Some s -> SerialImpl.isOpen_ s = true ->
  SerialImpl.read s (chunk_size_ (this p)) (dev p) = SerialImpl.Thrown e rest ->
  listen (S n) p = Throw e (set_dev rest p).
Proof.
  intros Hl Hport Hopen Hread.
  pose proof (read_throws_literal _ _ _ _ _ Hread) as Hlit.
  unfold listen, try_catch_std. rewrite (listen_loop_S n p Hl).
  unfold bind at 1.
  unfold listen_cycle, determineAmountToRead, readSomeData, bind, gets.
  rewrite Hport. unfold SerialImpl.isOpen. rewrite Hopen.
  unfold ret, port_read. change (negb true) with false. cbv beta iota.
  rewrite Hread, Hlit. reflexivity.
Qed.

(** C3, at the failing inputs.  On a listener started on an open port:
    when the device is ready but [::read] returns nothing, as a
    disconnected device does, the string literal thrown by [read] leaves
    [listen] uncaught, no handler is called and the flag stays set; when
    [select] fails, the process exits. *)
Theorem device_error_escapes_listen :
  listen 1 (listening_on [SerialImpl.disconnected]) =
    Throw (c_string "SerialException('device reports readiness to read but returned no data (device disconnected?)')")
      (listening_on [])
  /\ events (listening_on []) = []
  /\ listening (this (listening_on [])) = true
  /\ listen 1 (listening_on [SerialImpl.select_fails 5]) =
       Exit SerialImpl.EXIT_FAILURE (listening_on []).
Proof. repeat split; reflexivity. Qed.

(** ** Starting and stopping *)

(** Starting twice: the exception is thrown before anything is written. *)
Lemma startListening_already_listening (port : SerialImpl.t) (p : Process) :
  listening (this p) = true ->
  startListening port p =
  Throw (SerialListenerException "Already listening.") p.
Proof.
  intros H. unfold startListening, bind, gets. rewrite H. reflexivity.
Qed.

(** Starting on a port that is not open: the flag and the port have been
    written when the exception is thrown. *)
Lemma startListening_not_open (port : SerialImpl.t) (p : Process) :
  listening (this p) = false -> SerialImpl.isOpen_ port = false ->
  startListening port p =
  Throw (SerialListenerException "Serial port not open.")
    (upd_this (set_serial_port_ (Some port))
       (upd_this (set_listening true) p)).
Proof.
  intros H Hopen. unfold startListening, bind, gets. rewrite H.
  unfold modify at 1. unfold modify at 1.
  unfold SerialImpl.isOpen. rewrite Hopen. reflexivity.
Qed.

(** C4, at the failing input: [startListening] on a port that is not open,
    from the state the constructor leaves.  The call throws, and the
    listener has its flag set and the port stored; starting it on an open
    port then fails as well. *)
Theorem startListening_closed_port_changes_state :
  exists p',
    startListening closed_port (Process_new []) =
      Throw (SerialListenerException "Serial port not open.") p'
    /\ listening (this (Process_new [])) = false
    /\ listening (this p') = true
    /\ serial_port_ (this p') = Some closed_port
    /\ startListening open_port p' =
       Throw (SerialListenerException "Already listening.") p'.
Proof. eexists. repeat split; reflexivity. Qed.

(** C6: whatever the state and whatever the two threads did before they
    were joined, [stopListening] returns and leaves the registry empty, the
    dispatch queue empty and the buffer empty. *)
Theorem stopListening_clears (threads : Process -> Process) (p : Process) :
  exists p',
    stopListening threads p = Ret tt p'
    /\ filters (this p') = []
    /\ callback_queue (this p') = []
    /\ data_buffer (this p') = [].
Proof. eexists. repeat split; reflexivity. Qed.

(** It also leaves the port forgotten, and the events as the threads left
    them. *)
Lemma stopListening_rest (threads : Process -> Process) (p : Process) :
  exists p',
    stopListening threads p = Ret tt p'
    /\ serial_port_ (this p') = None
    /\ events p' = events (threads (upd_this (set_listening false) p)).
Proof. eexists. repeat split; reflexivity. Qed.

(** ** Removing a filter *)

Lemma find_filter_absent (f : FilterPtr) (fs : list FilterPtr) :
  (forall g, In g fs -> same_filter g f = false) ->
  find_filter f fs = length fs.
Proof.
  induction fs as [|g fs IH]; intros H; simpl; [reflexivity|].
  rewrite (H g) by (left; reflexivity).
  rewrite IH by (intros h Hh; apply H; right; exact Hh). reflexivity.
Qed.

Lemma erase_end {A} (v : list A) : erase (length v) v = None.
Proof.
  induction v as [|x v IH]; simpl; [reflexivity|]. rewrite IH. reflexivity.
Qed.

(** A handle that is not in the registry: [std::find] returns
    [filters.end ()] and [erase] is called with it. *)
Lemma removeFilter_absent (f : FilterPtr) (p : Process) :
  (forall g, In g (filters (this p)) -> same_filter g f = false) ->
  removeFilter f p = Undefined.
Proof.
  intros H. unfold removeFilter, bind, gets.
  rewrite (find_filter_absent f _ H), erase_end. reflexivity.
Qed.

(** A handle that is in the registry is taken out of it. *)
Lemma removeFilter_present (f : FilterPtr) (fs1 : list FilterPtr)
      (g : FilterPtr) (fs2 : list FilterPtr) (p : Process) :
  filters (this p) = fs1 ++ g :: fs2 ->
  (forall h, In h fs1 -> same_filter h f = false) ->
  same_filter g f = true ->
  removeFilter f p = Ret tt (upd_this (set_filters (fs1 ++ fs2)) p).
Proof.
  intros Hfs H1 Hg. unfold removeFilter, bind, gets. rewrite Hfs. clear Hfs.
  assert (E : erase (find_filter f (fs1 ++ g :: fs2)) (fs1 ++ g :: fs2)
              = Some (fs1 ++ fs2)).
  { induction fs1 as [|h fs1 IH]; simpl.
    - rewrite Hg. reflexivity.
    - rewrite (H1 h) by (left; reflexivity). simpl.
      rewrite IH by (intros k Hk; apply H1; right; exact Hk). reflexivity. }
  rewrite E. reflexivity.
Qed.

(** C5, at the failing inputs: removing a handle that was never registered,
    and removing a handle a second time, are undefined behaviour. *)
Theorem removeFilter_absent_undefined :
  removeFilter filter1 (Process_new []) = Undefined
  /\ removeFilter filter1 two_filters =
       Ret tt (upd_this (set_filters [filter2]) two_filters)
  /\ (removeFilter filter1 ;; removeFilter filter1) two_filters = Undefined.
Proof. repeat split; reflexivity. Qed.

(** ** The size of what [read] returns *)

(** [read] returns less than 1024 bytes more than it was asked for. *)
Lemma read_loop_length (size : nat) (d : SerialImpl.device) :
  forall message m rest,
    length message <= size + 1023 ->
    SerialImpl.read_loop size message d = SerialImpl.Returned m rest ->
    length m <= size + 1023.
Proof.
  induction d as [|q d IH]; intros message m rest Hm; cbn [SerialImpl.read_loop].
  - destruct (length message <? size); intros [= <- _]; exact Hm.
  - destruct (Nat.ltb_spec (length message) size) as [Hlt|Hge].
    + destruct ((SerialImpl.sel_r q =? -1)%Z && (SerialImpl.sel_errno q =? SerialImpl.EINTR)%Z).
      { apply IH. exact Hm. }
      destruct (SerialImpl.sel_r q =? -1)%Z; [discriminate|].
      destruct (SerialImpl.sel_isset q).
      * destruct (SerialImpl.to_size_t (SerialImpl.rd_n q) <? 1)%Z;
          [discriminate|].
        destruct (Z.leb_spec (SerialImpl.to_size_t (SerialImpl.rd_n q)) 1024)
          as [Hle|]; [|discriminate].
        apply IH. rewrite length_app.
        pose proof (firstn_le_length
                      (Z.to_nat (SerialImpl.to_size_t (SerialImpl.rd_n q)))
                      (SerialImpl.buf_after (SerialImpl.rd_buf q))) as H1.
        lia.
      * intros [= <- _]; exact Hm.
    + intros [= <- _]; exact Hm.
Qed.

Lemma read_length (s : SerialImpl.t) (size : nat) (d : SerialImpl.device)
      (m : bytes) (rest : SerialImpl.device) :
  SerialImpl.read s size d = SerialImpl.Returned m rest ->
  length m <= size + 1023.
Proof.
  unfold SerialImpl.read. destruct (negb (SerialImpl.isOpen_ s)); [discriminate|].
  apply read_loop_length. simpl. lia.
Qed.

(** C7, at the failing input: asked for 5 bytes while the device has 10
    ready, [read] returns the 10. *)
Theorem read_returns_more_than_asked :
  SerialImpl.read open_port 5 [SerialImpl.delivers (lit "0123456789")] =
    SerialImpl.Returned (lit "0123456789") []
  /\ 5 < length (lit "0123456789").
Proof. split; [reflexivity | simpl; lia]. Qed.

(** ** The callback thread *)

Lemma calls_add_cout (t : bytes) (p : Process) :
  calls (add_event (Cout t) p) = calls p.
Proof.
  unfold calls, add_event. simpl. rewrite filter_app. simpl.
  rewrite app_nil_r. reflexivity.
Qed.

(** With an empty queue that nobody fills, the callback thread does nothing
    to the process. *)
Lemma runner_idle (p : Process) :
  callback_queue (this p) = [] ->
  forall k pc,
    pc = at_while \/ pc = at_pop \/ pc = returned ->
    snd (run_schedule (repeat runner k) (pc, p)) = p.
Proof.
  intros Hq. induction k as [|k IH]; intros pc Hpc; [reflexivity|].
  cbn [repeat run_schedule act fst snd].
  destruct Hpc as [->|[->| ->]]; cbn [runner_step].
  - destruct (listening (this p)); apply IH; tauto.
  - rewrite Hq. cbn [queue_timed_wait_and_pop]. apply IH; tauto.
  - apply IH; tauto.
Qed.

Lemma matches_of_none (tokens : list TokenPtr) (f : FilterPtr) :
  (forall t, In t tokens -> comparator_ f t = Returns false) ->
  matches_of tokens f = [].
Proof.
  unfold matches_of. induction tokens as [|t ts IH]; intros H; [reflexivity|].
  cbn [List.filter]. unfold matches at 1. rewrite (H t (or_introl eq_refl)).
  apply IH. intros u Hu. apply H. right. exact Hu.
Qed.

(** A batch whose completed tokens no registered filter accepts leaves the
    queue as it is: the tokens are dropped. *)
Lemma unmatched_tokens_leave_queue (new_tokens : list TokenPtr) (p : Process) :
  new_tokens <> [] ->
  (forall f, In f (filters (this p)) ->
             forall t, In t (completed new_tokens) ->
                       comparator_ f t = Returns false) ->
  filterNewTokens new_tokens p =
  Ret tt (upd_this (set_data_buffer (remainder new_tokens)) p).
Proof.
  intros Hne H. rewrite filterNewTokens_quiet; [|exact Hne|].
  - assert (E : flat_map (matches_of (completed new_tokens))
                  (filters (this p)) = []).
    { induction (filters (this p)) as [|f fs IH]; [reflexivity|].
      cbn [flat_map]. rewrite IH by (intros g Hg; apply H; right; exact Hg).
      rewrite app_nil_r. apply matches_of_none, H. left. reflexivity. }
    rewrite E, push_all_nil. reflexivity.
  - intros f Hf t Ht. exists false. exact (H f Hf t Ht).
Qed.

(** A token that a registered filter accepts reaches the callback of that
    filter: the line [PING], the filter for [PING], four steps of the
    callback thread. *)
Example matched_token_is_delivered :
  callback_queue (this ping_queued) = [(ping_filter, lit "PING")]
  /\ events (snd (run_schedule (repeat runner 4) (at_while, ping_queued)))
     = [Cout (lit "PING"); Called 1 (lit "PING")].
Proof. split; reflexivity. Qed.

(** C8, at the failing input: a listener with a default-token handler and a
    filter for [PONG] reads the line [PING].  The token matches no
    registered filter; nothing is put on the queue for it, and however long
    the callback thread runs, no user function is called: the default-token
    handler does not get the token. *)
Theorem unmatched_token_is_dropped :
  exists p',
    listen 2 (pong_only [SerialImpl.delivers ping_line]) = Ret in_loop p'
    /\ _default_handler (this p') = Some default_fn
    /\ List.map (fun f => matches f (lit "PING")) (filters (this p')) = [false]
    /\ data_buffer (this p') = []
    /\ callback_queue (this p') = []
    /\ forall k,
         events (snd (run_schedule (repeat runner k) (at_while, p'))) = [].
Proof.
  eexists. split; [reflexivity|]. repeat split; try reflexivity.
  intros k. rewrite runner_idle; [reflexivity | reflexivity | tauto].
Qed.

(** The steps of the callback thread and the writes of other threads keep
    the flag clear and start no call, as long as the flag is clear, no call
    is about to be made, and nobody sets the flag. *)
Lemma act_flag_clear (a : action) (pc : runner_pc) (p : Process) :
  listening (this p) = false ->
  (forall entry, pc <> at_invoke entry) ->
  a <> write_listening true ->
  listening (this (snd (act a (pc, p)))) = false
  /\ (forall entry, fst (act a (pc, p)) <> at_invoke entry)
  /\ calls (snd (act a (pc, p))) = calls p.
Proof.
  intros Hl Hpc Ha. destruct a as [|b|e|]; cbn [act fst snd].
  - destruct pc as [| |e|e| | |]; cbn [runner_step].
    + rewrite Hl. repeat split; [exact Hl | discriminate].
    + destruct (queue_timed_wait_and_pop (callback_queue (this p)))
        as [[e q]|]; cbn [fst snd].
      * repeat split;
          [exact Hl | discriminate | rewrite calls_add_cout; reflexivity].
      * repeat split; [exact Hl | discriminate].
    + rewrite Hl. repeat split; [exact Hl | discriminate].
    + exfalso. exact (Hpc e eq_refl).
    + repeat split; [exact Hl | discriminate].
    + repeat split; [exact Hl | discriminate].
    + repeat split; [exact Hl | discriminate].
  - destruct b; [congruence|]. repeat split; [exact Hpc].
  - repeat split; [exact Hl | exact Hpc].
  - repeat split; [exact Hl | exact Hpc].
Qed.

(** C10, as amended: once the flag is clear, and unless the callback thread
    has already passed its second test of the flag for an entry, the thread
    does not come to call a callback for as long as no other thread sets
    the flag again: an entry it pops is dropped at the second test, and no
    user function is called. *)
Theorem no_call_once_flag_is_clear
        (sched : list action) (pc : runner_pc) (p : Process) :
  listening (this p) = false ->
  (forall entry, pc <> at_invoke entry) ->
  (forall a, In a sched -> a <> write_listening true) ->
  (forall entry, fst (run_schedule sched (pc, p)) <> at_invoke entry)
  /\ calls (snd (run_schedule sched (pc, p))) = calls p.
Proof.
  revert pc p. induction sched as [|a sched IH]; intros pc p Hl Hpc Hs.
  - split; [exact Hpc | reflexivity].
  - cbn [run_schedule].
    destruct (act_flag_clear a pc p Hl Hpc (Hs a (or_introl eq_refl)))
      as (Hl' & Hpc' & Hcalls).
    destruct (act a (pc, p)) as [pc' p'] eqn:E. cbn [fst snd] in *.
    destruct (IH pc' p' Hl' Hpc') as [IH1 IH2].
    + intros b Hb. apply Hs. right. exact Hb.
    + split; [exact IH1 | rewrite IH2; exact Hcalls].
Qed.

(** The flag is cleared between the second test and the call: the callback
    is called while the flag is clear. *)
Lemma callback_called_after_flag_cleared :
  exists c,
    run_schedule [runner; runner; runner; write_listening false]
      (at_while, ping_queued) = c
    /\ listening (this (snd c)) = false
    /\ calls (snd c) = []
    /\ calls (snd (act runner c)) = [Called 1 (lit "PING")].
Proof. eexists. repeat split; reflexivity. Qed.

(** The theorem on a schedule in which an entry is pushed and popped after
    the flag was cleared. *)
Lemma no_call_once_flag_is_clear_witness :
  calls (snd (run_schedule [runner; runner; push (ping_filter, lit "PING");
                            runner; write_listening false; runner; runner]
                (at_pop, upd_this (set_listening false) ping_queued)))
  = [].
Proof.
  apply (no_call_once_flag_is_clear
           [runner; runner; push (ping_filter, lit "PING");
            runner; write_listening false; runner; runner]
           at_pop (upd_this (set_listening false) ping_queued)).
  - reflexivity.
  - discriminate.
  - intros a Ha. simpl in Ha.
    repeat (destruct Ha as [<-|Ha]; [discriminate|]). destruct Ha.
Defined.

(** ** Chunk invariance *)

Section Chunks.

Variable d : bytes.

(** What a scan leaves is free of delimiters. *)
Lemma remainder_delimiter_free (cur s : bytes) :
  delimiter_free d cur ->
  delimiter_free d (remainder (split_from d cur s)).
Proof.
  revert cur. induction s as [|c s IH]; intros cur Hfree; simpl.
  - exact Hfree.
  - destruct (strip_suffix d (cur ++ [c])) as [token|] eqn:E.
    + change (token :: split_from d [] s)
        with ([token] ++ split_from d [] s).
      rewrite (remainder_app [token]) by apply split_from_not_nil.
      apply IH, delimiter_free_nil.
    + apply IH, delimiter_free_snoc; assumption.
Qed.

(** The scan of a buffer that is free of delimiters, followed by more
    input. *)
Lemma tokenizer_carry (b s : bytes) :
  delimiter_free d b ->
  delimeter_tokenizer d (b ++ s) = split_from d b s.
Proof. intros H. apply (split_from_rescan d [] b s). exact H. Qed.

Lemma steady_quiet (p : Process) (tokens : list TokenPtr) :
  steady d p -> forall f, In f (filters (this p)) -> quiet f tokens.
Proof. intros [_ H] f Hf t _. exact (H f Hf t). Qed.

(** One read cycle of a steady listener on the bytes [temp]. *)
Lemma listen_on_steady (temp : bytes) (p : Process) :
  steady d p ->
  listen_on temp p =
  Ret tt
    (upd_this
       (set_data_buffer
          (remainder (delimeter_tokenizer d (data_buffer (this p) ++ temp))))
       (push_all
          (flat_map
             (matches_of
                (completed
                   (delimeter_tokenizer d (data_buffer (this p) ++ temp))))
             (filters (this p)))
          (upd_this (set_data_buffer (data_buffer (this p) ++ temp)) p)))
  \/ temp = [] /\ listen_on temp p = Ret tt p.
Proof.
  intros Hs. destruct temp as [|c temp]; [right; split; reflexivity|].
  left. rewrite listen_on_data by discriminate.
  destruct Hs as [Htok Hq]. rewrite Htok.
  rewrite filterNewTokens_quiet.
  - reflexivity.
  - apply tokenizer_not_nil.
  - intros f Hf t _. exact (Hq f Hf t).
Qed.

Lemma no_tokens_no_entries (fs : list FilterPtr) :
  flat_map (matches_of []) fs = [].
Proof. induction fs as [|f fs IH]; [reflexivity | exact IH]. Qed.

(** Incremental tokenization gives the tokens of the whole input. *)
Lemma incremental_whole (chunks : list bytes) :
  forall b, delimiter_free d b ->
    concat (fst (incremental (delimeter_tokenizer d) b chunks))
      = completed (split_from d b (concat chunks))
    /\ snd (incremental (delimeter_tokenizer d) b chunks)
      = remainder (split_from d b (concat chunks)).
Proof.
  induction chunks as [|c rest IH]; intros b Hb.
  - split; reflexivity.
  - cbn [incremental concat].
    rewrite (tokenizer_carry b c Hb).
    pose proof (remainder_delimiter_free b c Hb) as Hr.
    destruct (IH _ Hr) as [IH1 IH2].
    destruct (incremental (delimeter_tokenizer d)
                (remainder (split_from d b c)) rest) as [batches r].
    cbn [fst snd concat] in *.
    rewrite (split_from_app d b c (concat rest) Hb).
    rewrite (split_from_rescan d [] _ (concat rest) Hr). cbn [app].
    rewrite completed_app, remainder_app by apply split_from_not_nil.
    rewrite IH1, IH2. split; reflexivity.
Qed.

(** The read cycles of a steady listener put on the queue the entries of
    the batches of incremental tokenization, and leave its remainder in
    the buffer. *)
Lemma listen_on_chunks_incremental (chunks : list bytes) :
  forall p,
    steady d p -> delimiter_free d (data_buffer (this p)) ->
    exists p',
      listen_on_chunks chunks p = Ret tt p'
      /\ callback_queue (this p')
         = callback_queue (this p)
             ++ entries_for (filters (this p))
                  (fst (incremental (delimeter_tokenizer d)
                          (data_buffer (this p)) chunks))
      /\ data_buffer (this p')
         = snd (incremental (delimeter_tokenizer d)
                  (data_buffer (this p)) chunks).
Proof.
  induction chunks as [|c rest IH]; intros p Hs Hb.
  - exists p. cbn. rewrite app_nil_r. repeat split.
  - cbn [listen_on_chunks incremental]. unfold bind at 1.
    destruct (listen_on_steady c p Hs) as [E|[-> E]]; rewrite E; clear E.
    + set (T := delimeter_tokenizer d (data_buffer (this p) ++ c)).
      set (p1 := upd_this (set_data_buffer (remainder T)) _).
      assert (Hs1 : steady d p1) by exact Hs.
      assert (Hb1 : delimiter_free d (data_buffer (this p1))).
      { apply (remainder_delimiter_free [] _ (delimiter_free_nil d)). }
      destruct (IH p1 Hs1 Hb1) as (p' & Hrun & Hq & Hbuf).
      exists p'. split; [exact Hrun|].
      change (data_buffer (this p1)) with (remainder T) in *.
      change (filters (this p1)) with (filters (this p)) in *.
      destruct (incremental (delimeter_tokenizer d) (remainder T) rest)
        as [batches r].
      cbn [fst snd] in *. split; [|exact Hbuf].
      rewrite Hq. unfold entries_for. cbn [flat_map].
      rewrite app_assoc. reflexivity.
    + destruct (IH p Hs Hb) as (p' & Hrun & Hq & Hbuf).
      exists p'. split; [exact Hrun|].
      rewrite (tokenizer_carry (data_buffer (this p)) [] Hb).
      cbn [split_from remainder last completed removelast].
      destruct (incremental (delimeter_tokenizer d) (data_buffer (this p))
                  rest) as [batches r].
      cbn [fst snd] in *. split; [|exact Hbuf].
      rewrite Hq. unfold entries_for. cbn [flat_map].
      rewrite no_tokens_no_entries. reflexivity.
Qed.

End Chunks.

(** C9: chunk invariance.  A listener with the delimiter tokenizer, an
    empty buffer and comparators that do not throw is fed the chunks one
    read cycle after the other.  Its queue receives the entries of the
    batches of incremental tokenization and its buffer ends as the carried
    remainder; the batches, one after the other, are the completed tokens of
    the whole input tokenized at once, and the remainder is the same. *)
Theorem chunk_invariance (d : bytes) (chunks : list bytes) (p : Process) :
  steady d p ->
  data_buffer (this p) = [] ->
  exists p',
    listen_on_chunks chunks p = Ret tt p'
    /\ callback_queue (this p')
       = callback_queue (this p)
           ++ entries_for (filters (this p))
                (fst (incremental (delimeter_tokenizer d) [] chunks))
    /\ data_buffer (this p')
       = snd (incremental (delimeter_tokenizer d) [] chunks)
    /\ concat (fst (incremental (delimeter_tokenizer d) [] chunks))
       = completed (delimeter_tokenizer d (concat chunks))
    /\ snd (incremental (delimeter_tokenizer d) [] chunks)
       = remainder (delimeter_tokenizer d (concat chunks)).
Proof.
  intros Hs Hb.
  assert (Hfree : delimiter_free d (data_buffer (this p))).
  { rewrite Hb. apply delimiter_free_nil. }
  destruct (listen_on_chunks_incremental d chunks p Hs Hfree)
    as (p' & Hrun & Hq & Hbuf).
  rewrite Hb in Hq, Hbuf.
  destruct (incremental_whole d chunks [] (delimiter_free_nil d)) as [H1 H2].
  exists p'. repeat split; assumption.
Qed.

(** The theorem at the two chunks of the scenario of the spec and a
    registry of two filters. *)
Lemma chunk_invariance_witness :
  exists p',
    listen_on_chunks scenario_chunks two_filters = Ret tt p'
    /\ callback_queue (this p')
       = callback_queue (this two_filters)
           ++ entries_for (filters (this two_filters))
                (fst (incremental (delimeter_tokenizer [CR]) []
                        scenario_chunks))
    /\ data_buffer (this p')
       = snd (incremental (delimeter_tokenizer [CR]) [] scenario_chunks)
    /\ concat (fst (incremental (delimeter_tokenizer [CR]) [] scenario_chunks))
       = completed (delimeter_tokenizer [CR] (concat scenario_chunks))
    /\ snd (incremental (delimeter_tokenizer [CR]) [] scenario_chunks)
       = remainder (delimeter_tokenizer [CR] (concat scenario_chunks)).
Proof.
  apply (chunk_invariance [CR] scenario_chunks two_filters).
  - split; [reflexivity|].
    intros f Hf t. exists true. destruct Hf as [<-|[<-|[]]]; reflexivity.
  - reflexivity.
Defined.

(** What one filter sees of the batches is what it sees of their
    concatenation. *)
Lemma entries_for_one (f : FilterPtr) (batches : list (list TokenPtr)) :
  entries_for [f] batches = matches_of (concat batches) f.
Proof.
  induction batches as [|T batches IH]; [reflexivity|].
  change (entries_for [f] (T :: batches))
    with ((matches_of T f ++ []) ++ entries_for [f] batches).
  rewrite IH, app_nil_r. unfold matches_of. cbn [concat].
  rewrite filter_app, map_app. reflexivity.
Qed.

(** With a single filter in the registry, the queue receives the matches
    of that filter among the completed tokens of the whole input, however
    the input is cut into chunks. *)
Lemma chunks_seen_by_one_filter (d : bytes) (chunks : list bytes)
      (f : FilterPtr) (p : Process) :
  steady d p -> data_buffer (this p) = [] -> filters (this p) = [f] ->
  exists p',
    listen_on_chunks chunks p = Ret tt p'
    /\ callback_queue (this p')
       = callback_queue (this p)
           ++ matches_of (completed (delimeter_tokenizer d (concat chunks))) f
    /\ data_buffer (this p')
       = remainder (delimeter_tokenizer d (concat chunks)).
Proof.
  intros Hs Hb Hf.
  assert (Hfree : delimiter_free d (data_buffer (this p))).
  { rewrite Hb. apply delimiter_free_nil. }
  destruct (listen_on_chunks_incremental d chunks p Hs Hfree)
    as (p' & Hrun & Hq & Hbuf).
  rewrite Hb in Hq, Hbuf. rewrite Hf, entries_for_one in Hq.
  destruct (incremental_whole d chunks [] (delimiter_free_nil d)) as [H1 H2].
  cbn [fst snd] in *. rewrite H1 in Hq. rewrite H2 in Hbuf.
  exists p'. repeat split; assumption.
Qed.

(** The scenario of the spec, through the port: the device delivers [AB],
    a delimiter and [CD], then [EF] and a delimiter.  The tokens are [AB]
    and [CDEF], and the remainder is empty. *)
Example scenario_two_chunks :
  exists p',
    listen 2 (one_filter (map SerialImpl.delivers scenario_chunks))
      = Ret in_loop p'
    /\ map snd (callback_queue (this p')) = [lit "AB"; lit "CDEF"]
    /\ data_buffer (this p') = []
    /\ delimeter_tokenizer [CR] (concat scenario_chunks)
       = [lit "AB"; lit "CDEF"; []].
Proof. eexists. repeat split; reflexivity. Qed.

(** * Further properties of the listener *)

(** ** What the producer thread does and does not do *)

Lemma produced_refl (p : Process) : produced p p.
Proof.
  unfold produced. repeat split; try reflexivity.
  exists []. rewrite app_nil_r. split; [reflexivity | constructor].
Qed.

Lemma produced_trans (p q r : Process) :
  produced p q -> produced q r -> produced p r.
Proof.
  unfold produced.
  intros (A1 & A2 & A3 & A4 & A5 & A6 & A7 & A8 & A9 & A10 & n1 & Q1 & F1)
         (B1 & B2 & B3 & B4 & B5 & B6 & B7 & B8 & B9 & B10 & n2 & Q2 & F2).
  repeat split; try congruence.
  exists (n1 ++ n2). split.
  - rewrite Q2, Q1, app_assoc. reflexivity.
  - apply Forall_app. split; [exact F1|].
    eapply Forall_impl; [|exact F2].
    intros e [He1 He2]. split; [rewrite <- A4; exact He1 | exact He2].
Qed.

(** The states of a sequence of two steps. *)
Lemma ends_in_bind {A B} (m : M A) (k : A -> M B) (p : Process) :
  ends_in (produced p) (m p) ->
  (forall a q, produced p q -> ends_in (produced q) (k a q)) ->
  ends_in (produced p) (bind m k p).
Proof.
  intros Hm Hk. unfold bind. destruct (m p) as [a q|e q|st q|]; simpl in *;
    try exact Hm.
  specialize (Hk a q Hm).
  destruct (k a q) as [b r|e r|st r|]; simpl in *;
    try (eapply produced_trans; eassumption); exact I.
Qed.

Lemma produced_set_data_buffer (b : bytes) (p : Process) :
  produced p (upd_this (set_data_buffer b) p).
Proof.
  unfold produced. repeat split; try reflexivity.
  exists []. simpl. rewrite app_nil_r. split; [reflexivity | constructor].
Qed.

Lemma produced_set_dev (d : SerialImpl.device) (p : Process) :
  produced p (set_dev d p).
Proof.
  unfold produced. repeat split; try reflexivity.
  exists []. simpl. rewrite app_nil_r. split; [reflexivity | constructor].
Qed.

Lemma produced_handle_exc (e : exn) (p : Process) :
  produced p (add_event (HandleExc e) p).
Proof.
  unfold produced. repeat split; try reflexivity.
  - unfold calls, add_event. simpl. rewrite filter_app. simpl.
    rewrite app_nil_r. reflexivity.
  - exists []. simpl. rewrite app_nil_r. split; [reflexivity | constructor].
Qed.

Lemma produced_push (f : FilterPtr) (t : TokenPtr) (p : Process) :
  In f (filters (this p)) -> comparator_ f t = Returns true ->
  produced p (push_all [(f, t)] p).
Proof.
  intros Hf Ht. unfold produced. repeat split; try reflexivity.
  exists [(f, t)]. split; [reflexivity|].
  constructor; [split; assumption | constructor].
Qed.

(** The sweep of one registered filter. *)
Lemma filter_produced (f : FilterPtr) (tokens : list TokenPtr) :
  forall p, In f (filters (this p)) ->
            ends_in (produced p) (filter f tokens p).
Proof.
  unfold filter. induction tokens as [|t rest IH]; intros p Hf.
  - apply produced_refl.
  - destruct rest as [|t' rest].
    + apply produced_refl.
    + rewrite filter_from_step.
      destruct (comparator_ f t) as [[]|e] eqn:E.
      * pose proof (produced_push f t p Hf E) as H1.
        assert (Hf' : In f (filters (this (push_all [(f, t)] p))))
          by exact Hf.
        specialize (IH _ Hf').
        destruct (filter_from f (t' :: rest) (push_all [(f, t)] p));
          simpl in *; try (eapply produced_trans; eassumption); exact I.
      * apply IH, Hf.
      * apply produced_refl.
Qed.

Lemma for_each_filter_produced (fs : list FilterPtr)
      (tokens : list TokenPtr) :
  forall p, incl fs (filters (this p)) ->
            ends_in (produced p) (for_each_filter fs tokens p).
Proof.
  induction fs as [|f fs IH]; intros p Hfs.
  - apply produced_refl.
  - cbn [for_each_filter]. apply ends_in_bind.
    + apply filter_produced, Hfs. left. reflexivity.
    + intros _ q Hq. apply IH.
      destruct Hq as (_ & _ & _ & Hq & _). rewrite Hq.
      intros g Hg. apply Hfs. right. exact Hg.
Qed.

Lemma filterNewTokens_produced (new_tokens : list TokenPtr) (p : Process) :
  ends_in (produced p) (filterNewTokens new_tokens p).
Proof.
  unfold filterNewTokens. unfold bind at 1, gets. apply ends_in_bind.
  - apply for_each_filter_produced, incl_refl.
  - intros _ r Hr. destruct new_tokens; [exact I|].
    apply produced_set_data_buffer.
Qed.

Lemma listen_on_produced (temp : bytes) (p : Process) :
  ends_in (produced p) (listen_on temp p).
Proof.
  destruct temp as [|c temp]; [apply produced_refl|].
  rewrite listen_on_data by discriminate.
  pose proof (filterNewTokens_produced
                (tokenize (this p) (data_buffer (this p) ++ c :: temp))
                (upd_this (set_data_buffer (data_buffer (this p) ++ c :: temp))
                   p)) as H.
  destruct (filterNewTokens _ _) as [a q|e q|st q|]; simpl in *;
    try exact I;
    (eapply produced_trans; [apply produced_set_data_buffer | exact H]).
Qed.

Lemma port_read_produced (s : SerialImpl.t) (n : nat) (p : Process) :
  ends_in (produced p) (port_read s n p).
Proof.
  unfold port_read. destruct (SerialImpl.read s n (dev p)); simpl;
    try apply produced_set_dev; exact I.
Qed.

Lemma readSomeData_produced (n : nat) (p : Process) :
  ends_in (produced p) (readSomeData n p).
Proof.
  unfold readSomeData. unfold bind at 1, gets.
  destruct (serial_port_ (this p)) as [s|].
  - apply ends_in_bind.
    + destruct (negb (SerialImpl.isOpen s)); simpl;
        [apply produced_handle_exc | apply produced_refl].
    + intros _ q _. apply port_read_produced.
  - exact I.
Qed.

Lemma listen_cycle_produced (p : Process) :
  ends_in (produced p) (listen_cycle p).
Proof.
  unfold listen_cycle. apply ends_in_bind; [apply produced_refl|].
  intros n q _. apply ends_in_bind; [apply readSomeData_produced|].
  intros temp r _. apply listen_on_produced.
Qed.

Lemma listen_loop_produced (n : nat) :
  forall p, ends_in (produced p) (listen_loop n p).
Proof.
  induction n as [|n IH]; intros p; [apply produced_refl|].
  cbn [listen_loop]. apply ends_in_bind; [apply produced_refl|].
  intros l q _. destruct l; [|apply produced_refl].
  apply ends_in_bind; [apply listen_cycle_produced|].
  intros _ r _. apply IH.
Qed.

Lemma listen_produced (n : nat) (p : Process) :
  ends_in (produced p) (listen n p).
Proof.
  unfold listen, try_catch_std.
  pose proof (listen_loop_produced n p) as H.
  destruct (listen_loop n p) as [a q|e q|st q|]; simpl in *; try exact H.
  destruct (is_std_exception e); simpl; [|exact H].
  eapply produced_trans; [exact H | apply produced_handle_exc].
Qed.

(** X1: however [listen] ends, after however many cycles, it has only
    added entries at the end of the dispatch queue, each for a filter of
    the registry and a token the comparator of that filter returned [true]
    for; it has called no user function, and it has not written the flag,
    the port, the registry, the handlers or the tokenizer. *)
Theorem listen_only_produces (n : nat) (p : Process) :
  ends_in (produced p) (listen n p).
Proof.
  unfold listen, try_catch_std.
  pose proof (listen_loop_produced n p) as H.
  destruct (listen_loop n p) as [a q|e q|st q|]; simpl in *; try exact H.
  destruct (is_std_exception e); simpl; [|exact H].
  eapply produced_trans; [exact H | apply produced_handle_exc].
Qed.

(** ** Batches without a completed token *)

Lemma for_each_filter_remainder_only (fs : list FilterPtr) (t : TokenPtr)
      (p : Process) :
  for_each_filter fs [t] p = Ret tt p.
Proof.
  induction fs as [|f fs IH]; [reflexivity|].
  cbn [for_each_filter]. unfold bind at 1. cbn. exact IH.
Qed.

Lemma for_each_filter_no_token (fs : list FilterPtr) (p : Process) :
  for_each_filter fs [] p = Ret tt p.
Proof.
  induction fs as [|f fs IH]; [reflexivity|].
  cbn [for_each_filter]. unfold bind at 1. cbn. exact IH.
Qed.

(** X2: a batch that holds only a remainder runs no comparator, whatever
    the registry: nothing is queued, no exception can arise, and the
    element becomes the buffer. *)
Theorem filterNewTokens_remainder_only (t : TokenPtr) (p : Process) :
  filterNewTokens [t] p = Ret tt (upd_this (set_data_buffer t) p).
Proof.
  unfold filterNewTokens. unfold bind at 1, gets. unfold bind at 1.
  rewrite for_each_filter_remainder_only. reflexivity.
Qed.

(** X3: a tokenizer must give back at least one element.  When the
    tokenizer of the listener returns an empty vector for the buffer, the
    read cycle takes [back ()] of an empty vector: undefined behaviour. *)
Theorem listen_on_empty_vector (temp : bytes) (p : Process) :
  temp <> [] ->
  tokenize (this p) (data_buffer (this p) ++ temp) = [] ->
  listen_on temp p = Undefined.
Proof.
  intros Hne Htok. rewrite (listen_on_data temp p Hne), Htok.
  unfold filterNewTokens. unfold bind at 1, gets. unfold bind at 1.
  rewrite for_each_filter_no_token. reflexivity.
Qed.

(** The theorem for a tokenizer that returns nothing at all. *)
Lemma listen_on_empty_vector_witness :
  listen_on (lit "A") (after (setTokenizer (fun _ => [])) two_filters)
  = Undefined.
Proof.
  apply (listen_on_empty_vector (lit "A")
           (after (setTokenizer (fun _ => [])) two_filters)).
  - discriminate.
  - reflexivity.
Defined.

Lemma bytes_eqb_refl (b : bytes) : bytes_eqb b b = true.
Proof.
  induction b as [|c b IH]; [reflexivity|].
  simpl. rewrite Ascii.eqb_refl. exact IH.
Qed.

(** X15: the default comparator accepts every token, so the filter the
    constructor builds for the default-token handler matches every
    token. *)
Theorem defaultComparator_accepts_all (token : bytes) :
  defaultComparator token = Returns true
  /\ matches (default_filter SerialListener_new) token = true.
Proof.
  unfold matches. cbn [default_filter SerialListener_new comparator_].
  unfold defaultComparator. rewrite bytes_eqb_refl. split; reflexivity.
Qed.

(** ** Delivery by the callback thread *)

Lemma add_events_nil (p : Process) : add_events [] p = p.
Proof. destruct p. unfold add_events. simpl. rewrite app_nil_r. reflexivity. Qed.

Lemma add_events_app (a b : list event) (p : Process) :
  add_events b (add_events a p) = add_events (a ++ b) p.
Proof. unfold add_events. simpl. rewrite app_assoc. reflexivity. Qed.

Lemma add_event_one (e : event) (p : Process) :
  add_event e p = add_events [e] p.
Proof. reflexivity. Qed.

(** Events added one by one are the events added at once. *)
Ltac events_in_order :=
  repeat rewrite add_event_one; repeat rewrite add_events_app; reflexivity.

Lemma act_runner (pc : runner_pc) (p : Process) :
  act runner (pc, p) = runner_step pc p.
Proof. reflexivity. Qed.

Lemma step_at_while (p : Process) :
  listening (this p) = true -> runner_step at_while p = (at_pop, p).
Proof. intros H. cbn [runner_step]. rewrite H. reflexivity. Qed.

Lemma step_at_pop (e : FilterPtr * TokenPtr) (rest : queue) (p : Process) :
  callback_queue (this p) = e :: rest ->
  runner_step at_pop p =
  (at_recheck e,
   add_event (Cout (snd e)) (upd_this (set_callback_queue rest) p)).
Proof. intros H. cbn [runner_step]. rewrite H. reflexivity. Qed.

Lemma step_at_recheck (e : FilterPtr * TokenPtr) (p : Process) :
  listening (this p) = true -> runner_step (at_recheck e) p = (at_invoke e, p).
Proof. intros H. cbn [runner_step]. rewrite H. reflexivity. Qed.

(** The first three steps for the entry at the head of the queue. *)
Lemma runner_reaches_call (e : FilterPtr * TokenPtr) (rest : queue)
      (p : Process) :
  listening (this p) = true ->
  callback_queue (this p) = e :: rest ->
  run_schedule [runner; runner; runner; runner] (at_while, p) =
  runner_step (at_invoke e)
    (add_event (Cout (snd e)) (upd_this (set_callback_queue rest) p)).
Proof.
  intros Hl Hq. cbn [run_schedule].
  rewrite act_runner, (step_at_while p Hl).
  rewrite act_runner, (step_at_pop e rest p Hq).
  rewrite act_runner, step_at_recheck by exact Hl.
  apply act_runner.
Qed.

(** The four steps the thread takes for the entry at the head of the
    queue, while the flag is set and the user function does not throw
    anything but a [std::exception]. *)
Lemma runner_delivers_head (e : FilterPtr * TokenPtr) (rest : queue)
      (p : Process) :
  listening (this p) = true ->
  callback_queue (this p) = e :: rest ->
  contained (_default_handler (this p)) e ->
  run_schedule [runner; runner; runner; runner] (at_while, p) =
  (at_while,
   add_events (delivery (_default_handler (this p)) e)
     (upd_this (set_callback_queue rest) p)).
Proof.
  intros Hl Hq Hc. rewrite (runner_reaches_call e rest p Hl Hq).
  cbn [runner_step].
  unfold contained, delivery in *. unfold try_catch_std, call.
  destruct e as [f t]. cbn [fst snd] in *.
  destruct (callback_ f) as [u|]; cbn [callee] in *.
  - unfold call_user, bind, emit. destruct (run u t) as [[]|x]; cbn.
    + events_in_order.
    + rewrite Hc. unfold handle_exc, emit. events_in_order.
  - unfold default_handler, bind, gets. cbn.
    destruct (_default_handler (this p)) as [u|]; cbn.
    + unfold call_user, bind, emit. destruct (run u t) as [[]|x]; cbn.
      * events_in_order.
      * rewrite Hc. unfold handle_exc, emit. events_in_order.
    + reflexivity.
Qed.

Lemma run_schedule_app (a b : list action) (c : runner_pc * Process) :
  run_schedule (a ++ b) c = run_schedule b (run_schedule a c).
Proof.
  revert c. induction a as [|x a IH]; intros c; [reflexivity|].
  cbn [app run_schedule]. apply IH.
Qed.

(** X4: left alone with the flag set, the callback thread empties the
    queue first in, first out.  Each entry is popped and its callback is
    called once with its token; a [std::exception] thrown by a user
    function goes to the unhandled-exception handler and the thread goes on
    with the next entry.  After four steps for each entry the thread is
    back at the head of its loop and the queue is empty. *)
Theorem callback_delivers_in_order (q : queue) (p : Process) :
  listening (this p) = true ->
  callback_queue (this p) = q ->
  Forall (contained (_default_handler (this p))) q ->
  run_schedule (repeat runner (4 * length q)) (at_while, p) =
  (at_while,
   add_events (flat_map (delivery (_default_handler (this p))) q)
     (upd_this (set_callback_queue []) p)).
Proof.
  revert p. induction q as [|e rest IH]; intros p Hl Hq Hc.
  - cbn. rewrite add_events_nil. destruct p as [l d h ev].
    destruct l. simpl in Hq. subst. reflexivity.
  - replace (4 * length (e :: rest)) with (4 + 4 * length rest)
      by (simpl; lia).
    change (repeat runner (4 + 4 * length rest))
      with ([runner; runner; runner; runner]
              ++ repeat runner (4 * length rest)).
    rewrite run_schedule_app.
    inversion Hc as [|e' rest' He Hrest]; subst e' rest'.
    rewrite (runner_delivers_head e rest p Hl Hq He).
    rewrite IH; [|exact Hl|reflexivity|exact Hrest].
    cbn [flat_map]. rewrite <- add_events_app. reflexivity.
Qed.

(** The theorem for a queue of three entries, the second of which has a
    user function that throws a [std::exception]. *)
Lemma callback_delivers_in_order_witness :
  events
    (snd (run_schedule (repeat runner 12)
            (at_while,
             push_all [(filter1, lit "A");
                       (mkFilter 7 accept_all (user (throws_std 7 "oops")),
                        lit "B");
                       (filter2, lit "C")]
               (listening_on []))))
  = [Cout (lit "A"); Called 1 (lit "A");
     Cout (lit "B"); Called 7 (lit "B"); HandleExc (std_exception "oops");
     Cout (lit "C"); Called 2 (lit "C")].
Proof.
  assert (H : Forall (contained (_default_handler (this (listening_on []))))
                [(filter1, lit "A");
                 (mkFilter 7 accept_all (user (throws_std 7 "oops")), lit "B");
                 (filter2, lit "C")])
    by (repeat constructor).
  exact (f_equal (fun c => events (snd c))
           (callback_delivers_in_order
              [(filter1, lit "A");
               (mkFilter 7 accept_all (user (throws_std 7 "oops")), lit "B");
               (filter2, lit "C")]
              (push_all [(filter1, lit "A");
                         (mkFilter 7 accept_all (user (throws_std 7 "oops")),
                          lit "B");
                         (filter2, lit "C")]
                 (listening_on []))
              eq_refl eq_refl H)).
Defined.

Lemma runner_stays_escaped (x : exn) (p : Process) (k : nat) :
  run_schedule (repeat runner k) (escaped x, p) = (escaped x, p).
Proof. induction k as [|k IH]; [reflexivity | exact IH]. Qed.

(** X5: a user function that throws something that is not a
    [std::exception], a string literal for one, ends the callback thread:
    the exception leaves [callback] through both handlers, the
    unhandled-exception handler is not called, and the entries behind it in
    the queue are never delivered, however long the thread is given. *)
Theorem callback_literal_escapes (e : FilterPtr * TokenPtr) (rest : queue)
        (f : user_fn) (x : exn) (k : nat) (p : Process) :
  listening (this p) = true ->
  callback_queue (this p) = e :: rest ->
  callee (_default_handler (this p)) (callback_ (fst e)) = Some f ->
  run f (snd e) = Raises x ->
  is_std_exception x = false ->
  run_schedule (repeat runner (4 + k)) (at_while, p) =
  (escaped x,
   add_events [Cout (snd e); Called (label f) (snd e)]
     (upd_this (set_callback_queue rest) p)).
Proof.
  intros Hl Hq Hf Hr Hx.
  change (repeat runner (4 + k))
    with ([runner; runner; runner; runner] ++ repeat runner k).
  rewrite run_schedule_app.
  assert (H4 : run_schedule [runner; runner; runner; runner] (at_while, p) =
               (escaped x,
                add_events [Cout (snd e); Called (label f) (snd e)]
                  (upd_this (set_callback_queue rest) p))).
  { rewrite (runner_reaches_call e rest p Hl Hq). cbn [runner_step].
    unfold try_catch_std, call.
    destruct e as [g t]. cbn [fst snd] in *.
    destruct (callback_ g) as [u|]; cbn [callee] in Hf.
    - injection Hf as ->. unfold call_user, bind, emit. rewrite Hr. cbn.
      rewrite Hx. events_in_order.
    - unfold default_handler, bind, gets. cbn. rewrite Hf.
      unfold call_user, bind, emit. rewrite Hr. cbn.
      rewrite Hx. events_in_order. }
  rewrite H4. apply runner_stays_escaped.
Qed.

(** The theorem for a queue whose first entry throws a string literal. *)
Lemma callback_literal_escapes_witness :
  run_schedule (repeat runner 9)
    (at_while,
     push_all [(mkFilter 7 accept_all (user (throws_literal 7 "oops")),
                lit "A");
               (filter2, lit "B")]
       (listening_on []))
  = (escaped (c_string "oops"),
     add_events [Cout (lit "A"); Called 7 (lit "A")]
       (push_all [(filter2, lit "B")] (listening_on []))).
Proof.
  apply (callback_literal_escapes
           (mkFilter 7 accept_all (user (throws_literal 7 "oops")), lit "A")
           [(filter2, lit "B")] (throws_literal 7 "oops") (c_string "oops") 5
           (push_all [(mkFilter 7 accept_all (user (throws_literal 7 "oops")),
                       lit "A");
                      (filter2, lit "B")]
              (listening_on [])));
    reflexivity.
Defined.

(** ** The registry of filters *)

Lemma same_filter_refl (f : FilterPtr) : same_filter f f = true.
Proof. apply Nat.eqb_refl. Qed.

Lemma same_filter_false (f g : FilterPtr) :
  address g <> address f -> same_filter g f = false.
Proof. intros H. apply Nat.eqb_neq. exact H. Qed.

(** In a registry of distinct filters, the other filters differ from [f]. *)
Lemma others_differ (fs1 : list FilterPtr) (f : FilterPtr)
      (fs2 : list FilterPtr) :
  NoDup (map address (fs1 ++ f :: fs2)) ->
  forall g, In g (fs1 ++ fs2) -> same_filter g f = false.
Proof.
  rewrite map_app. cbn [map]. intros H g Hg.
  apply NoDup_remove_2 in H. apply same_filter_false. intros E.
  apply H. rewrite <- E, <- map_app. apply in_map. exact Hg.
Qed.

Lemma erase_split {A} (i : nat) (v v' : list A) :
  erase i v = Some v' ->
  exists a x b, v = a ++ x :: b /\ v' = a ++ b.
Proof.
  revert i v'. induction v as [|y v IH]; intros i v' H;
    [destruct i; discriminate|].
  destruct i as [|i]; cbn [erase] in H.
  - injection H as <-. exists [], y, v. split; reflexivity.
  - destruct (erase i v) as [w|] eqn:E; simpl in H; [|discriminate].
    injection H as <-. destruct (IH i w E) as (a & x & b & -> & ->).
    exists (y :: a), x, b. split; reflexivity.
Qed.

(** X6: removing a registered filter takes that filter out of the registry
    and nothing else: the other filters keep their order, and the dispatch
    queue is not touched, so entries already queued for the filter stay
    queued.  From then on a sweep queues no entry for it. *)
Theorem removeFilter_keeps_queue (f : FilterPtr) (p : Process) :
  NoDup (map address (filters (this p))) ->
  In f (filters (this p)) ->
  exists fs1 fs2,
    filters (this p) = fs1 ++ f :: fs2
    /\ removeFilter f p = Ret tt (upd_this (set_filters (fs1 ++ fs2)) p)
    /\ forall new_tokens,
         ends_in
           (fun p' =>
              exists new,
                callback_queue (this p') = callback_queue (this p) ++ new
                /\ Forall (fun e => same_filter (fst e) f = false) new)
           (filterNewTokens new_tokens
              (upd_this (set_filters (fs1 ++ fs2)) p)).
Proof.
  intros Hnd Hin. apply in_split in Hin. destruct Hin as (fs1 & fs2 & Hfs).
  exists fs1, fs2. split; [exact Hfs|]. rewrite Hfs in Hnd.
  pose proof (others_differ fs1 f fs2 Hnd) as Hothers. split.
  - apply (removeFilter_present f fs1 f fs2 p Hfs).
    + intros h Hh. apply Hothers, in_or_app. left. exact Hh.
    + apply same_filter_refl.
  - intros new_tokens.
    pose proof (filterNewTokens_produced new_tokens
                  (upd_this (set_filters (fs1 ++ fs2)) p)) as H.
    destruct (filterNewTokens _ _) as [a q|e q|st q|]; simpl in *;
      try exact I;
      destruct H as (_ & _ & _ & _ & _ & _ & _ & _ & _ & _ & new & Hq & Hnew);
      exists new; (split; [exact Hq|]);
      (eapply Forall_impl; [|exact Hnew]);
      intros e' [He' _]; apply Hothers; exact He'.
Qed.

(** The theorem for the first of two filters, with an entry of it queued. *)
Lemma removeFilter_keeps_queue_witness :
  exists fs1 fs2,
    filters (this (push_all [(filter1, lit "A")] two_filters))
      = fs1 ++ filter1 :: fs2
    /\ removeFilter filter1 (push_all [(filter1, lit "A")] two_filters)
       = Ret tt (upd_this (set_filters (fs1 ++ fs2))
                   (push_all [(filter1, lit "A")] two_filters))
    /\ forall new_tokens,
         ends_in
           (fun p' =>
              exists new,
                callback_queue (this p')
                  = callback_queue
                      (this (push_all [(filter1, lit "A")] two_filters))
                      ++ new
                /\ Forall (fun e => same_filter (fst e) filter1 = false) new)
           (filterNewTokens new_tokens
              (upd_this (set_filters (fs1 ++ fs2))
                 (push_all [(filter1, lit "A")] two_filters))).
Proof.
  apply (removeFilter_keeps_queue filter1
           (push_all [(filter1, lit "A")] two_filters)).
  - simpl. repeat constructor; simpl; intuition discriminate.
  - left. reflexivity.
Defined.

(** X7: [removeAllFilters] empties the registry and the dispatch queue
    together.  The entries that were pending are never delivered: a
    callback thread that is not in the middle of a delivery calls nothing
    afterwards, and a sweep queues nothing. *)
Theorem removeAllFilters_drops_pending (p : Process) :
  removeAllFilters p =
    Ret tt (upd_this (set_callback_queue []) (upd_this (set_filters []) p))
  /\ (forall k,
        snd (run_schedule (repeat runner k)
               (at_while,
                upd_this (set_callback_queue [])
                  (upd_this (set_filters []) p)))
        = upd_this (set_callback_queue []) (upd_this (set_filters []) p))
  /\ (forall new_tokens,
        ends_in (fun p' => callback_queue (this p') = [])
          (filterNewTokens new_tokens
             (upd_this (set_callback_queue [])
                (upd_this (set_filters []) p)))).
Proof.
  split; [reflexivity|]. split.
  - intros k. apply runner_idle; [reflexivity | tauto].
  - intros new_tokens. unfold filterNewTokens. unfold bind at 1, gets.
    cbn [filters this upd_this set_callback_queue set_filters].
    cbn [for_each_filter]. unfold bind at 1, ret.
    destruct new_tokens; [exact I | reflexivity].
Qed.

(** X8: creating a filter and removing it again leaves the registry as it
    was, when the registry holds only filters allocated earlier; the new
    handle is found at the end of the registry, and only the next free
    address has moved. *)
Theorem createFilter_then_removeFilter
        (comparator : ComparatorType) (callback : DataCallback)
        (p : Process) :
  Forall (fun f => address f < heap_top p) (filters (this p)) ->
  (filter_ptr <- createFilter comparator callback ;;
   removeFilter filter_ptr) p
  = Ret tt (set_heap_top (S (heap_top p)) p).
Proof.
  intros Hold. unfold bind at 1. unfold createFilter.
  set (new := mkFilter (heap_top p) comparator callback).
  rewrite (removeFilter_present new (filters (this p)) new []
             (upd_this (fun l => set_filters (filters l ++ [new]) l)
                (set_heap_top (S (heap_top p)) p)) eq_refl).
  - cbn [upd_this this set_heap_top dev heap_top events].
    rewrite app_nil_r.
    destruct p as [l d h ev]. destruct l. reflexivity.
  - intros g Hg. apply same_filter_false.
    rewrite Forall_forall in Hold. specialize (Hold g Hg).
    subst new. simpl. lia.
  - apply same_filter_refl.
Qed.

(** The theorem for a third filter on top of two. *)
Lemma createFilter_then_removeFilter_witness :
  (filter_ptr <- createFilter accept_all (notes 3) ;;
   removeFilter filter_ptr) two_filters
  = Ret tt (set_heap_top 4 two_filters).
Proof.
  apply (createFilter_then_removeFilter accept_all (notes 3) two_filters).
  repeat constructor.
Defined.

Lemma registry_ok_new (d : SerialImpl.device) : registry_ok (Process_new d).
Proof. split; constructor. Qed.

Lemma registry_ok_produced (p p' : Process) :
  produced p p' -> registry_ok p -> registry_ok p'.
Proof.
  intros (_ & _ & _ & Hf & _ & _ & _ & _ & Hh & _) [H1 H2].
  unfold registry_ok. rewrite Hf, Hh. split; assumption.
Qed.

(** X9: the registry always holds distinct [Filter] objects, allocated
    below the next free address.  [createFilter] puts a handle that was not
    in the registry at its end, so the order of the registry is the order
    of registration; [removeFilter], [removeAllFilters], [startListening]
    and [listen] keep the registry well formed however they end. *)
Theorem registry_ok_kept (p : Process) :
  registry_ok p ->
  (forall comparator callback,
      match createFilter comparator callback p with
      | Ret f p' =>
          filters (this p') = filters (this p) ++ [f]
          /\ (forall g, In g (filters (this p)) -> same_filter g f = false)
          /\ registry_ok p'
      | _ => False
      end)
  /\ (forall f, ends_in registry_ok (removeFilter f p))
  /\ ends_in registry_ok (removeAllFilters p)
  /\ (forall port, ends_in registry_ok (startListening port p))
  /\ (forall n, ends_in registry_ok (listen n p)).
Proof.
  intros [Hnd Hlt]. split; [|split; [|split; [|split]]].
  - intros comparator callback. unfold createFilter.
    split; [reflexivity|]. split; [|split].
    + intros g Hg. apply same_filter_false. simpl.
      rewrite Forall_forall in Hlt. specialize (Hlt g Hg). lia.
    + simpl. rewrite map_app. apply NoDup_app.
      * exact Hnd.
      * repeat constructor. intros [].
      * intros a Ha [<-|[]]. apply in_map_iff in Ha.
        destruct Ha as (g & Hg & Hin). rewrite Forall_forall in Hlt.
        specialize (Hlt g Hin). simpl in Hg. lia.
    + simpl. apply Forall_app. split.
      * eapply Forall_impl; [|exact Hlt]. intros g Hg. simpl in *. lia.
      * repeat constructor.
  - intros f. unfold removeFilter. unfold bind at 1, gets.
    destruct (erase (find_filter f (filters (this p))) (filters (this p)))
      as [fs'|] eqn:E; [|exact I].
    apply erase_split in E. destruct E as (a & x & b & Ha & ->).
    simpl. unfold registry_ok. simpl. rewrite Ha in Hnd, Hlt. split.
    + rewrite map_app in *. simpl in Hnd.
      apply NoDup_remove_1 in Hnd. exact Hnd.
    + apply Forall_app in Hlt. destruct Hlt as [Hl1 Hl2].
      apply Forall_app. split; [exact Hl1|].
      inversion Hl2; assumption.
  - split; constructor.
  - intros port. unfold startListening. unfold bind at 1, gets.
    destruct (listening (this p)); [split; assumption|].
    unfold bind, modify.
    destruct (negb (SerialImpl.isOpen port)); split; assumption.
  - intros n. pose proof (listen_produced n p) as H.
    destruct (listen n p) as [a q|e q|st q|]; simpl in *; try exact I;
      apply (registry_ok_produced p q H); split; assumption.
Qed.

(** The theorem for the listener with two filters. *)
Lemma registry_ok_kept_witness :
  (forall comparator callback,
      match createFilter comparator callback two_filters with
      | Ret f p' =>
          filters (this p') = filters (this two_filters) ++ [f]
          /\ (forall g, In g (filters (this two_filters)) ->
                        same_filter g f = false)
          /\ registry_ok p'
      | _ => False
      end)
  /\ (forall f, ends_in registry_ok (removeFilter f two_filters))
  /\ ends_in registry_ok (removeAllFilters two_filters)
  /\ (forall port, ends_in registry_ok (startListening port two_filters))
  /\ (forall n, ends_in registry_ok (listen n two_filters)).
Proof.
  apply (registry_ok_kept two_filters).
  split; simpl.
  - repeat constructor; simpl; intuition discriminate.
  - repeat constructor.
Defined.

(** ** The producer on a quiet, a closed and a missing port *)

Lemma read_silent (s : SerialImpl.t) (size : nat) (d : SerialImpl.device) :
  SerialImpl.isOpen_ s = true ->
  Forall (fun q => silent q = true) d ->
  exists rest,
    SerialImpl.read s size d = SerialImpl.Returned [] rest
    /\ Forall (fun q => silent q = true) rest.
Proof.
  intros Hopen Hd. unfold SerialImpl.read. rewrite Hopen. cbn [negb].
  destruct d as [|q d]; cbn [SerialImpl.read_loop].
  - exists []. destruct (length [] <? size); split; (reflexivity || constructor).
  - destruct (length [] <? size).
    + inversion Hd as [|q' d' Hq Hrest]; subst.
      unfold silent in Hq. apply andb_true_iff in Hq. destruct Hq as [Hr Hs].
      apply negb_true_iff in Hr. apply negb_true_iff in Hs.
      rewrite Hr, Hs. cbn [andb]. exists d. split; [reflexivity | exact Hrest].
    + exists (q :: d). split; [reflexivity | exact Hd].
Qed.

Lemma listen_loop_idle (n : nat) (s : SerialImpl.t) :
  SerialImpl.isOpen_ s = true ->
  forall p,
    listening (this p) = true ->
    serial_port_ (this p) = Some s ->
    Forall (fun q => silent q = true) (dev p) ->
    exists rest, listen_loop n p = Ret in_loop (set_dev rest p).
Proof.
  intros Hopen. induction n as [|n IH]; intros p Hl Hport Hd.
  - exists (dev p). destruct p. reflexivity.
  - rewrite (listen_loop_S n p Hl). unfold bind at 1.
    destruct (read_silent s (chunk_size_ (this p)) (dev p) Hopen Hd)
      as (rest & Hread & Hrest).
    assert (Hc : listen_cycle p = Ret tt (set_dev rest p)).
    { unfold listen_cycle, determineAmountToRead, readSomeData, bind, gets.
      rewrite Hport. unfold SerialImpl.isOpen. rewrite Hopen.
      unfold ret, port_read. change (negb true) with false. cbv beta iota.
      rewrite Hread. reflexivity. }
    rewrite Hc.
    destruct (IH (set_dev rest p) Hl Hport Hrest) as (rest' & H).
    exists rest'. exact H.
Qed.

(** X10: on a device that only times out, the producer changes nothing
    but the device: however many read cycles it runs, the buffer, the
    queue, the registry and the events stay as they are, and [listen] is
    still in its loop. *)
Theorem listen_idle (n : nat) (s : SerialImpl.t) (p : Process) :
  listening (this p) = true ->
  serial_port_ (this p) = Some s ->
  SerialImpl.isOpen_ s = true ->
  Forall (fun q => silent q = true) (dev p) ->
  exists rest, listen n p = Ret in_loop (set_dev rest p).
Proof.
  intros Hl Hport Hopen Hd.
  destruct (listen_loop_idle n s Hopen p Hl Hport Hd) as (rest & H).
  exists rest. unfold listen, try_catch_std. rewrite H. reflexivity.
Qed.

(** The theorem for three cycles on a device with two timeouts to come. *)
Lemma listen_idle_witness :
  exists rest,
    listen 3 (listening_on [SerialImpl.mkPoll 0 0 false 0 [];
                            SerialImpl.mkPoll 0 0 false 0 []])
    = Ret in_loop
        (set_dev rest
           (listening_on [SerialImpl.mkPoll 0 0 false 0 [];
                          SerialImpl.mkPoll 0 0 false 0 []])).
Proof.
  apply (listen_idle 3 open_port
           (listening_on [SerialImpl.mkPoll 0 0 false 0 [];
                          SerialImpl.mkPoll 0 0 false 0 []])).
  - reflexivity.
  - reflexivity.
  - reflexivity.
  - repeat constructor.
Defined.

(** X11: when the port of a listening listener is no longer open, the
    read cycle reports "Serial port not open." to the unhandled-exception
    handler and reads all the same; the string literal [read] then throws
    leaves [listen], with the device untouched. *)
Theorem listen_closed_port (n : nat) (s : SerialImpl.t) (p : Process) :
  listening (this p) = true ->
  serial_port_ (this p) = Some s ->
  SerialImpl.isOpen_ s = false ->
  listen (S n) p =
  Throw (c_string "PortNotOpenError()")
    (add_event (HandleExc (SerialListenerException "Serial port not open."))
       p).
Proof.
  intros Hl Hport Hopen. unfold listen, try_catch_std.
  rewrite (listen_loop_S n p Hl). unfold bind at 1.
  unfold listen_cycle, determineAmountToRead, readSomeData, bind, gets.
  rewrite Hport. unfold SerialImpl.isOpen. rewrite Hopen.
  change (negb false) with true. cbv beta iota.
  unfold handle_exc, emit, port_read, SerialImpl.read. cbn [dev add_event].
  rewrite Hopen. reflexivity.
Qed.

(** The theorem for a listener whose port was closed after the start. *)
Lemma listen_closed_port_witness :
  listen 1 (upd_this (set_serial_port_ (Some closed_port)) (listening_on []))
  = Throw (c_string "PortNotOpenError()")
      (add_event (HandleExc (SerialListenerException "Serial port not open."))
         (upd_this (set_serial_port_ (Some closed_port)) (listening_on []))).
Proof.
  apply (listen_closed_port 0 closed_port
           (upd_this (set_serial_port_ (Some closed_port)) (listening_on [])));
    reflexivity.
Defined.

(** X12: with a null [serial_port_], the read cycle reports "Invalid
    serial port." and then calls [isOpen] through the null pointer:
    [listen] has undefined behaviour. *)
Theorem listen_null_port (n : nat) (p : Process) :
  listening (this p) = true ->
  serial_port_ (this p) = None ->
  listen (S n) p = Undefined.
Proof.
  intros Hl Hport. unfold listen, try_catch_std.
  rewrite (listen_loop_S n p Hl). unfold bind at 1.
  unfold listen_cycle, determineAmountToRead, readSomeData, bind, gets.
  rewrite Hport. reflexivity.
Qed.

(** The theorem for a listener whose flag is set and whose port is null. *)
Lemma listen_null_port_witness :
  listen 1 (upd_this (set_serial_port_ None) (listening_on [])) = Undefined.
Proof.
  apply (listen_null_port 0
           (upd_this (set_serial_port_ None) (listening_on [])));
    reflexivity.
Defined.

(** ** Starting, and starting again *)

(** X13: [startListening] on an open port, when not yet listening, sets
    the flag, stores the port and launches the two threads, and leaves the
    buffer, the registry, the queue and the events alone; a second
    [startListening], on whatever port, throws "Already listening." and
    changes nothing. *)
Theorem startListening_once (port port' : SerialImpl.t) (p : Process) :
  listening (this p) = false ->
  SerialImpl.isOpen_ port = true ->
  startListening port p =
    Ret tt
      (upd_this (set_threads true true)
         (upd_this (set_serial_port_ (Some port))
            (upd_this (set_listening true) p)))
  /\ (startListening port ;; startListening port') p =
       Throw (SerialListenerException "Already listening.")
         (upd_this (set_threads true true)
            (upd_this (set_serial_port_ (Some port))
               (upd_this (set_listening true) p))).
Proof.
  intros Hl Hopen.
  assert (H : startListening port p =
              Ret tt
                (upd_this (set_threads true true)
                   (upd_this (set_serial_port_ (Some port))
                      (upd_this (set_listening true) p)))).
  { unfold startListening, bind, gets. rewrite Hl.
    unfold modify at 1. unfold modify at 1.
    unfold SerialImpl.isOpen. rewrite Hopen. reflexivity. }
  split; [exact H|]. unfold bind at 1. rewrite H.
  apply startListening_already_listening. reflexivity.
Qed.

(** The theorem for a fresh listener. *)
Lemma startListening_once_witness :
  startListening open_port (Process_new []) = Ret tt (listening_on [])
  /\ (startListening open_port ;; startListening closed_port) (Process_new [])
     = Throw (SerialListenerException "Already listening.") (listening_on []).
Proof.
  apply (startListening_once open_port closed_port (Process_new []));
    reflexivity.
Defined.

(** X14: a listener can be started again after [stopListening], whatever
    state it was in (a failed start included), provided the two threads
    did not write the flag, which [listen] and [callback] never do.  The
    new session starts with an empty buffer, an empty registry and an empty
    queue: the filters have to be registered again. *)
Theorem restart (threads : Process -> Process) (port : SerialImpl.t)
        (p : Process) :
  (forall q, listening (this (threads q)) = listening (this q)) ->
  SerialImpl.isOpen_ port = true ->
  exists p',
    (stopListening threads ;; startListening port) p = Ret tt p'
    /\ listening (this p') = true
    /\ serial_port_ (this p') = Some port
    /\ data_buffer (this p') = []
    /\ filters (this p') = []
    /\ callback_queue (this p') = []
    /\ events p' = events (threads (upd_this (set_listening false) p)).
Proof.
  intros Hthreads Hopen. eexists. split.
  - unfold bind at 1. unfold stopListening, removeAllFilters, bind, modify.
    unfold startListening, bind, gets, modify.
    cbn [this upd_this listening set_callback_queue set_filters
         set_serial_port_ set_data_buffer set_threads].
    rewrite Hthreads. cbn [this upd_this listening set_listening].
    unfold SerialImpl.isOpen. rewrite Hopen. reflexivity.
  - repeat split; reflexivity.
Qed.

(** The theorem after a start that failed on a closed port, with threads
    that did nothing. *)
Lemma restart_witness :
  exists p',
    (stopListening (fun q => q) ;; startListening open_port)
      (after (startListening closed_port) (Process_new [])) = Ret tt p'
    /\ listening (this p') = true
    /\ serial_port_ (this p') = Some open_port
    /\ data_buffer (this p') = []
    /\ filters (this p') = []
    /\ callback_queue (this p') = []
    /\ events p' =
       events ((fun q => q)
                 (upd_this (set_listening false)
                    (after (startListening closed_port) (Process_new [])))).
Proof.
  apply (restart (fun q => q) open_port
           (after (startListening closed_port) (Process_new []))).
  - reflexivity.
  - reflexivity.
Defined.

(** * Further properties of the byte source *)

(** ** What [read] returns *)

(** X16: [read] never returns 1024 bytes or more beyond what was asked
    for: the message has at most [size + 1023] bytes. *)
Theorem read_at_most (s : SerialImpl.t) (size : nat) (d : SerialImpl.device)
        (m : bytes) (rest : SerialImpl.device) :
  SerialImpl.read s size d = SerialImpl.Returned m rest ->
  length m <= size + 1023.
Proof.
  unfold SerialImpl.read.
  destruct (negb (SerialImpl.isOpen_ s)); [discriminate|].
  apply read_loop_length. simpl. lia.
Qed.

(** The theorem for a request of one byte answered with 1024. *)
Lemma read_at_most_witness :
  length (repeat zero 1024) <= 1 + 1023.
Proof.
  apply (read_at_most open_port 1
           [SerialImpl.delivers (repeat zero 1024)] (repeat zero 1024) []).
  reflexivity.
Defined.

Lemma read_loop_in_order (size : nat) (d : SerialImpl.device) :
  forall message m rest,
    SerialImpl.read_loop size message d = SerialImpl.Returned m rest ->
    exists used, d = used ++ rest /\ m = message ++ flat_map payload used.
Proof.
  induction d as [|q d IH]; intros message m rest; cbn [SerialImpl.read_loop].
  - destruct (length message <? size); intros [= <- <-];
      exists []; (split; [reflexivity | symmetry; apply app_nil_r]).
  - destruct (length message <? size).
    + unfold payload.
      destruct (SerialImpl.sel_r q =? -1)%Z eqn:Er; cbn [andb].
      * destruct (SerialImpl.sel_errno q =? SerialImpl.EINTR)%Z;
          [|discriminate].
        intros H. destruct (IH _ _ _ H) as (used & -> & ->).
        exists (q :: used). cbn [flat_map app]. unfold payload at 1.
        rewrite Er. split; reflexivity.
      * destruct (SerialImpl.sel_isset q) eqn:Es.
        -- destruct (SerialImpl.to_size_t (SerialImpl.rd_n q) <? 1)%Z;
             [discriminate|].
           destruct (SerialImpl.to_size_t (SerialImpl.rd_n q) <=? 1024)%Z;
             [|discriminate].
           intros H. destruct (IH _ _ _ H) as (used & -> & ->).
           exists (q :: used). cbn [flat_map app]. unfold payload at 1.
           rewrite Er, Es, <- app_assoc. split; reflexivity.
        -- intros [= <- <-]. exists [q]. cbn [flat_map app].
           unfold payload. rewrite Er, Es.
           split; [reflexivity | symmetry; apply app_nil_r].
    + intros [= <- <-]. exists [].
      split; [reflexivity | symmetry; apply app_nil_r].
Qed.

(** X17: [read] returns the bytes of the device in order, without loss or
    repetition: the message is what the turns it used up added, one after
    the other, and the device is left at the first turn it did not use. *)
Theorem read_in_order (s : SerialImpl.t) (size : nat) (d : SerialImpl.device)
        (m : bytes) (rest : SerialImpl.device) :
  SerialImpl.read s size d = SerialImpl.Returned m rest ->
  exists used, d = used ++ rest /\ m = flat_map payload used.
Proof.
  unfold SerialImpl.read.
  destruct (negb (SerialImpl.isOpen_ s)); [discriminate|].
  intros H. destruct (read_loop_in_order size d [] m rest H) as (u & A & B).
  exists u. split; assumption.
Qed.

(** The theorem for a request of four bytes on a device that delivers two
    bytes, is interrupted, delivers three more and then two. *)
Lemma read_in_order_witness :
  exists used,
    [SerialImpl.delivers (lit "ab"); SerialImpl.mkPoll (-1) 4 false 0 [];
     SerialImpl.delivers (lit "cde"); SerialImpl.delivers (lit "fg")]
    = used ++ [SerialImpl.delivers (lit "fg")]
    /\ lit "abcde" = flat_map payload used.
Proof.
  apply (read_in_order open_port 4
           [SerialImpl.delivers (lit "ab"); SerialImpl.mkPoll (-1) 4 false 0 [];
            SerialImpl.delivers (lit "cde"); SerialImpl.delivers (lit "fg")]
           (lit "abcde") [SerialImpl.delivers (lit "fg")]).
  reflexivity.
Defined.




(** ** Closing, and a port that is not open *)

(** X19: [close] leaves the port closed and is idempotent.  It calls
    [::close] at most once, and only on an open port with a descriptor; a
    second [close] makes no system call.  On the closed port [read] throws
    "PortNotOpenError()" without touching the device, and [available]
    returns 0 without asking the system. *)
Theorem close_closes (s : Port.t) :
  Port.isOpen (Port.object (Port.close s)) = false
  /\ Port.close (Port.object (Port.close s))
     = Port.finished tt (Port.object (Port.close s)) []
  /\ (Port.syscalls (Port.close s) = []
      \/ Port.syscalls (Port.close s) = [Port.sys_close (Port.fd_ s)]
         /\ Port.isOpen_ s = true /\ Port.fd_ s <> (-1)%Z
         /\ Port.fd_ (Port.object (Port.close s)) = (-1)%Z)
  /\ (forall size d,
         Port.read (Port.object (Port.close s)) size d
         = SerialImpl.Thrown (c_string "PortNotOpenError()") d)
  /\ (forall ioctl_r count,
         Port.available (Port.object (Port.close s)) ioctl_r count
         = Port.finished 0%Z (Port.object (Port.close s)) []).
Proof.
  destruct s as [[fd o tm] p b bs pa st fl ic xo rt].
  unfold Port.close, Port.isOpen, Port.isOpen_, Port.fd_. cbn.
  destruct o; cbn.
  - destruct (Z.eqb_spec fd (-1)) as [->|Hfd]; cbn.
    + repeat split; try reflexivity. left. reflexivity.
    + repeat split; try reflexivity. right. repeat split; congruence.
  - repeat split; try reflexivity. left. reflexivity.
Qed.

(** X20: a port that is not open and has no descriptor stays that way.
    [open] throws "error" whether or not a port name is set,
    [reconfigurePort] and [setBaudrate] throw "Error" (the baud rate has
    been stored by then), [close] and [setPort] do nothing to it, [read]
    throws and [available] returns 0; none of them makes a system call. *)
Theorem closed_port_stays_closed (h : Port.termios_h) (s : Port.t) :
  Port.isOpen_ s = false ->
  Port.fd_ s = (-1)%Z ->
  (forall open_r tc_r attrs,
      Port.open h s open_r tc_r attrs = Port.threw (c_string "error") s [])
  /\ (forall tc_r attrs,
         Port.reconfigurePort h s tc_r attrs
         = Port.threw (c_string "Error") s [])
  /\ (forall baudrate tc_r attrs,
         Port.setBaudrate h baudrate s tc_r attrs
         = Port.threw (c_string "Error") (Port.set_baudrate_ baudrate s) []
         /\ Port.getBaudrate (Port.set_baudrate_ baudrate s) = baudrate
         /\ Port.isOpen_ (Port.set_baudrate_ baudrate s) = false
         /\ Port.fd_ (Port.set_baudrate_ baudrate s) = (-1)%Z)
  /\ Port.close s = Port.finished tt s []
  /\ (forall port,
         Port.getPort (Port.setPort port s) = port
         /\ Port.isOpen_ (Port.setPort port s) = false
         /\ Port.fd_ (Port.setPort port s) = (-1)%Z)
  /\ (forall size d,
         Port.read s size d
         = SerialImpl.Thrown (c_string "PortNotOpenError()") d)
  /\ (forall ioctl_r count,
         Port.available s ioctl_r count = Port.finished 0%Z s []).
Proof.
  intros Hopen Hfd. repeat split.
  - unfold Port.open. rewrite Hopen. cbn [negb].
    destruct (negb (String.eqb (Port.port_ s) "")); reflexivity.
  - unfold Port.reconfigurePort. rewrite Hfd. reflexivity.
  - unfold Port.setBaudrate, Port.reconfigurePort.
    change (Port.fd_ (Port.set_baudrate_ baudrate s)) with (Port.fd_ s).
    rewrite Hfd. reflexivity.
  - exact Hopen.
  - exact Hfd.
  - unfold Port.close. rewrite Hopen. reflexivity.
  - exact Hopen.
  - exact Hfd.
  - unfold Port.read, SerialImpl.read.
    change (SerialImpl.isOpen_ (Port.base s)) with (Port.isOpen_ s).
    rewrite Hopen. reflexivity.
  - unfold Port.available. rewrite Hopen. reflexivity.
Qed.

(** The theorem for a port object without a descriptor. *)
Lemma closed_port_stays_closed_witness :
  Port.open Port.linux (Port.port_8N1 (-1) false) 3 0 Port.cooked
  = Port.threw (c_string "error") (Port.port_8N1 (-1) false) [].
Proof.
  apply (closed_port_stays_closed Port.linux (Port.port_8N1 (-1) false));
    reflexivity.
Defined.

(** X21: the constructor never gives an open port.  With a port name it
    calls [open], which throws "error" before any system call; without one
    it gives a closed port without a descriptor.  A listener that is not
    listening cannot be started on such a port: [startListening] throws
    "Serial port not open.". *)
Theorem constructor_never_opens
        (h : Port.termios_h) (port : string) (baudrate timeout : Z)
        (bytesize : Port.bytesize_t) (parity : Port.parity_t)
        (stopbits : Port.stopbits_t) (flowcontrol : Z)
        (xonxoff0 rtscts0 : bool) (open_r tc_r : Z) (attrs : Port.termios) :
  match Port.SerialImpl_new h port baudrate timeout bytesize parity stopbits
          flowcontrol xonxoff0 rtscts0 open_r tc_r attrs with
  | Port.finished _ s calls =>
      port = ""%string /\ calls = []
      /\ Port.isOpen_ s = false /\ Port.fd_ s = (-1)%Z
      /\ forall p,
           exists p',
             startListening (Port.base s) (upd_this (set_listening false) p)
             = Throw (SerialListenerException "Serial port not open.") p'
  | Port.threw e _ calls =>
      port <> ""%string /\ calls = [] /\ e = c_string "error"
  end.
Proof.
  unfold Port.SerialImpl_new. cbn [Port.port_].
  destruct (String.eqb_spec port "") as [->|Hport]; cbn [negb].
  - repeat split. intros p. eexists.
    apply (startListening_not_open _ (upd_this (set_listening false) p));
      reflexivity.
  - unfold Port.open. cbn [Port.port_].
    destruct (String.eqb_spec port ""); [contradiction|]. cbn [negb].
    repeat split. exact Hport.
Qed.

(** ** Configuring the terminal *)

(** X22: [reconfigurePort] installs new terminal settings or none.  It
    never changes the object.  It returns exactly when the port has a
    descriptor, [tcgetattr] succeeds and the character size, the stop bits
    and the parity are among those it knows; it has then called
    [tcgetattr] and, last, [tcsetattr], once each.  Otherwise it throws a
    string literal and [tcsetattr] has not been called. *)
Theorem reconfigurePort_all_or_nothing
        (h : Port.termios_h) (s : Port.t) (tc_r : Z) (attrs : Port.termios) :
  Port.object (Port.reconfigurePort h s tc_r attrs) = s
  /\ match Port.thrown (Port.reconfigurePort h s tc_r attrs) with
     | None => true
     | Some _ => false
     end
     = negb (Port.fd_ s =? -1)%Z && negb (tc_r =? -1)%Z
       && Port.valid_settings s
  /\ match Port.reconfigurePort h s tc_r attrs with
     | Port.finished _ _ calls =>
         exists options,
           calls = [Port.sys_tcgetattr (Port.fd_ s);
                    Port.sys_tcsetattr (Port.fd_ s) options]
     | Port.threw e _ calls =>
         is_std_exception e = false
         /\ Port.installed calls = None
         /\ (calls = [] \/ calls = [Port.sys_tcgetattr (Port.fd_ s)])
     end.
Proof.
  unfold Port.reconfigurePort, Port.valid_settings.
  destruct (Port.fd_ s =? -1)%Z; cbn [negb andb].
  { repeat split. left. reflexivity. }
  destruct (tc_r =? -1)%Z; cbn [negb andb].
  { repeat split. right. reflexivity. }
  destruct (Port.bytesize_ s); cbn [andb];
    try (repeat split; right; reflexivity);
    (destruct (Port.stopbits_ s); cbn [andb];
     try (repeat split; right; reflexivity);
     (destruct (Port.parity_ s); cbn [andb];
      try (repeat split; right; reflexivity);
      (repeat split; eexists; reflexivity))).
Qed.

Lemma testbit_land_0 (a b : Z) (n : Z) :
  Z.land a b = 0%Z -> Z.testbit a n && Z.testbit b n = false.
Proof.
  intros H. rewrite <- Z.land_spec, H. apply Z.bits_0.
Qed.

Lemma land_clear_same (x m : Z) : Z.land (Port.clear_bits x m) m = 0%Z.
Proof.
  unfold Port.clear_bits. apply Z.bits_inj'. intros n Hn.
  rewrite !Z.land_spec, Z.lnot_spec, Z.bits_0 by exact Hn.
  destruct (Z.testbit x n), (Z.testbit m n); reflexivity.
Qed.

Lemma land_set_same (x m : Z) : Z.land (Port.set_bits x m) m = m.
Proof.
  unfold Port.set_bits. apply Z.bits_inj'. intros n Hn.
  rewrite Z.land_spec, Z.lor_spec.
  destruct (Z.testbit x n), (Z.testbit m n); reflexivity.
Qed.

Lemma land_clear_apart (x m k : Z) :
  Z.land m k = 0%Z -> Z.land (Port.clear_bits x m) k = Z.land x k.
Proof.
  intros H. unfold Port.clear_bits. apply Z.bits_inj'. intros n Hn.
  pose proof (testbit_land_0 m k n H) as Hb.
  rewrite !Z.land_spec, Z.lnot_spec by exact Hn.
  destruct (Z.testbit x n), (Z.testbit m n), (Z.testbit k n);
    simpl in *; congruence.
Qed.

Lemma land_set_apart (x m k : Z) :
  Z.land m k = 0%Z -> Z.land (Port.set_bits x m) k = Z.land x k.
Proof.
  intros H. unfold Port.set_bits. apply Z.bits_inj'. intros n Hn.
  pose proof (testbit_land_0 m k n H) as Hb.
  rewrite !Z.land_spec, Z.lor_spec.
  destruct (Z.testbit x n), (Z.testbit m n), (Z.testbit k n);
    simpl in *; congruence.
Qed.

Lemma land_lor_apart (a b k : Z) :
  Z.land a k = 0%Z -> Z.land b k = 0%Z -> Z.land (Z.lor a b) k = 0%Z.
Proof.
  intros Ha Hb. rewrite Z.land_lor_distr_l, Ha, Hb. reflexivity.
Qed.

(** A bit of the mask is clear after [x &= ~mask], and set after
    [x |= mask]. *)
Lemma land_clear_part (x mask a : Z) :
  Z.land a mask = a -> Z.land (Port.clear_bits x mask) a = 0%Z.
Proof.
  intros H. unfold Port.clear_bits. apply Z.bits_inj'. intros n Hn.
  apply (f_equal (fun z => Z.testbit z n)) in H.
  rewrite Z.land_spec in H.
  rewrite !Z.land_spec, Z.lnot_spec, Z.bits_0 by exact Hn.
  destruct (Z.testbit x n), (Z.testbit mask n), (Z.testbit a n);
    simpl in *; congruence.
Qed.

Lemma land_set_part (x mask a : Z) :
  Z.land a mask = a -> Z.land (Port.set_bits x mask) a = a.
Proof.
  intros H. unfold Port.set_bits. apply Z.bits_inj'. intros n Hn.
  apply (f_equal (fun z => Z.testbit z n)) in H.
  rewrite Z.land_spec in H. rewrite Z.land_spec, Z.lor_spec.
  destruct (Z.testbit x n), (Z.testbit mask n), (Z.testbit a n);
    simpl in *; congruence.
Qed.

Lemma part_lor_l (a b : Z) : Z.land a (Z.lor a b) = a.
Proof.
  apply Z.bits_inj'. intros n Hn. rewrite Z.land_spec, Z.lor_spec.
  destruct (Z.testbit a n), (Z.testbit b n); reflexivity.
Qed.

Lemma part_lor_r (a b : Z) : Z.land b (Z.lor a b) = b.
Proof.
  apply Z.bits_inj'. intros n Hn. rewrite Z.land_spec, Z.lor_spec.
  destruct (Z.testbit a n), (Z.testbit b n); reflexivity.
Qed.

Lemma part_lor_more (a m b : Z) :
  Z.land a m = a -> Z.land a (Z.lor m b) = a.
Proof.
  intros H. apply Z.bits_inj'. intros n Hn.
  apply (f_equal (fun z => Z.testbit z n)) in H.
  rewrite Z.land_spec in H. rewrite Z.land_spec, Z.lor_spec.
  destruct (Z.testbit a n), (Z.testbit m n), (Z.testbit b n);
    simpl in *; congruence.
Qed.

(** The character size written into the size field. *)
Lemma land_set_field (x k c : Z) :
  Z.land c k = c ->
  Z.land (Port.set_bits (Port.clear_bits x k) c) k = c.
Proof.
  intros H. unfold Port.set_bits, Port.clear_bits.
  apply Z.bits_inj'. intros n Hn.
  apply (f_equal (fun z => Z.testbit z n)) in H.
  rewrite Z.land_spec in H.
  rewrite !Z.land_spec, Z.lor_spec, Z.land_spec, Z.lnot_spec by exact Hn.
  destruct (Z.testbit x n), (Z.testbit k n), (Z.testbit c n);
    simpl in *; congruence.
Qed.

(** X23: the settings [reconfigurePort] installs put the terminal in raw
    mode, provided [cfsetspeed] leaves the local flags, the output flags
    and the control characters alone.  Canonical input, the echo flags,
    signals and extended processing are off, and so is output processing.
    With the inter-character timeout at -1, where the constructor puts it,
    [VMIN] is 1 and [VTIME] is -10 as an [uint8_t], that is 246;
    otherwise both are 0.  The other control characters are those
    [tcgetattr] reported. *)
Theorem reconfigurePort_raw_mode
        (h : Port.termios_h) (s s' : Port.t) (tc_r : Z)
        (attrs : Port.termios) (calls : list Port.syscall) :
  Port.cfsetspeed_keeps h ->
  Port.VMIN h <> Port.VTIME h ->
  Port.reconfigurePort h s tc_r attrs = Port.finished tt s' calls ->
  exists o,
    Port.installed calls = Some o
    /\ Z.land (Port.c_lflag o) (Port.ICANON h) = 0%Z
    /\ Z.land (Port.c_lflag o) (Port.ECHO h) = 0%Z
    /\ Z.land (Port.c_lflag o) (Port.ECHOE h) = 0%Z
    /\ Z.land (Port.c_lflag o) (Port.ECHOK h) = 0%Z
    /\ Z.land (Port.c_lflag o) (Port.ECHONL h) = 0%Z
    /\ Z.land (Port.c_lflag o) (Port.ISIG h) = 0%Z
    /\ Z.land (Port.c_lflag o) (Port.IEXTEN h) = 0%Z
    /\ Z.land (Port.c_oflag o) (Port.OPOST h) = 0%Z
    /\ Port.c_cc o (Port.VMIN h)
       = (if (Port.interCharTimeout_ s =? -1)%Z then 1 else 0)%Z
    /\ Port.c_cc o (Port.VTIME h)
       = (if (Port.interCharTimeout_ s =? -1)%Z then 246 else 0)%Z
    /\ forall i, i <> Port.VMIN h -> i <> Port.VTIME h ->
                 Port.c_cc o i = Port.c_cc attrs i.
Proof.
  intros Hkeep Hvv Hrun. unfold Port.reconfigurePort in Hrun.
  destruct (Port.fd_ s =? -1)%Z; [discriminate|].
  destruct (tc_r =? -1)%Z; [discriminate|].
  match type of Hrun with
  | context [Port.cfsetspeed h ?o ?b] =>
      destruct (Hkeep o b) as (Kl & Ko & Kc);
      set (sped := Port.cfsetspeed h o b) in *
  end.
  cbn [Port.c_lflag Port.c_oflag Port.c_cc] in Kl, Ko, Kc.
  destruct (Port.bytesize_ s); try discriminate;
    (destruct (Port.stopbits_ s); try discriminate;
     (destruct (Port.parity_ s); try discriminate)).
  all: injection Hrun as _ <-.
  all: eexists; split; [reflexivity|].
  all: cbn [Port.c_lflag Port.c_oflag Port.c_cc].
  all: rewrite Kl, Ko, Kc.
  all: repeat split.
  all: try apply land_clear_same.
  all: try solve [apply land_clear_part;
                  repeat first [apply part_lor_r | apply part_lor_l
                                | apply part_lor_more]].
  all: unfold Port.set_c_cc.
  all: try (rewrite Z.eqb_refl;
            try (destruct (Z.eqb_spec (Port.VMIN h) (Port.VTIME h));
                 [contradiction|]);
            try rewrite Z.eqb_refl;
            destruct (Z.eqb_spec (Port.interCharTimeout_ s) (-1)) as [E|E];
            try rewrite E; reflexivity).
  all: intros i Hi1 Hi2;
    destruct (Z.eqb_spec i (Port.VTIME h)); [contradiction|];
    destruct (Z.eqb_spec i (Port.VMIN h)); [contradiction|]; reflexivity.
Qed.

(** The theorem for a terminal in cooked mode on Linux. *)
Lemma reconfigurePort_raw_mode_witness :
  exists o,
    Port.installed
      (Port.syscalls
         (Port.reconfigurePort Port.linux (Port.port_8N1 3 true) 0
            Port.cooked)) = Some o
    /\ Z.land (Port.c_lflag o) (Port.ICANON Port.linux) = 0%Z
    /\ Z.land (Port.c_lflag o) (Port.ECHO Port.linux) = 0%Z
    /\ Z.land (Port.c_lflag o) (Port.ECHOE Port.linux) = 0%Z
    /\ Z.land (Port.c_lflag o) (Port.ECHOK Port.linux) = 0%Z
    /\ Z.land (Port.c_lflag o) (Port.ECHONL Port.linux) = 0%Z
    /\ Z.land (Port.c_lflag o) (Port.ISIG Port.linux) = 0%Z
    /\ Z.land (Port.c_lflag o) (Port.IEXTEN Port.linux) = 0%Z
    /\ Z.land (Port.c_oflag o) (Port.OPOST Port.linux) = 0%Z
    /\ Port.c_cc o (Port.VMIN Port.linux)
       = (if (Port.interCharTimeout_ (Port.port_8N1 3 true) =? -1)%Z
          then 1 else 0)%Z
    /\ Port.c_cc o (Port.VTIME Port.linux)
       = (if (Port.interCharTimeout_ (Port.port_8N1 3 true) =? -1)%Z
          then 246 else 0)%Z
    /\ forall i, i <> Port.VMIN Port.linux -> i <> Port.VTIME Port.linux ->
                 Port.c_cc o i = Port.c_cc Port.cooked i.
Proof.
  apply (reconfigurePort_raw_mode Port.linux (Port.port_8N1 3 true)
           (Port.port_8N1 3 true) 0 Port.cooked).
  - intros o b. repeat split.
  - discriminate.
  - reflexivity.
Defined.

(** A flag operation on other bits does not change the bits looked at. *)
Ltac look_through :=
  repeat first
    [ rewrite land_set_apart
        by (assumption || (apply land_lor_apart; assumption))
    | rewrite land_clear_apart
        by (assumption || (apply land_lor_apart; assumption)) ].

(** The bits looked at, after the operation that wrote them. *)
Ltac written :=
  first
    [ apply land_set_same
    | apply land_clear_same
    | apply land_set_field; assumption
    | apply land_clear_part; (apply part_lor_l || apply part_lor_r)
    | apply land_set_part; (apply part_lor_l || apply part_lor_r) ].

(** X24: the settings [reconfigurePort] installs carry the frame format of
    the object, provided the fields of [c_cflag] do not overlap: the
    character size asked for; one stop bit, or two for both [STOPBITS_TWO]
    and [STOPBITS_ONE_POINT_FIVE]; parity off, even or odd; and hardware
    flow control on or off as [rtscts_] says.  This holds whatever
    [cfsetspeed] did to the flags. *)
Theorem reconfigurePort_frame_format
        (h : Port.termios_h) (s s' : Port.t) (tc_r : Z)
        (attrs : Port.termios) (calls : list Port.syscall) :
  Port.cflag_fields_apart h ->
  Port.reconfigurePort h s tc_r attrs = Port.finished tt s' calls ->
  exists o,
    Port.installed calls = Some o
    /\ Z.land (Port.c_cflag o) (Port.CSIZE h)
       = Port.size_bits h (Port.bytesize_ s)
    /\ Z.land (Port.c_cflag o) (Port.CSTOPB h)
       = match Port.stopbits_ s with
         | Port.STOPBITS_ONE => 0%Z
         | _ => Port.CSTOPB h
         end
    /\ Z.land (Port.c_cflag o) (Port.PARENB h)
       = match Port.parity_ s with
         | Port.PARITY_NONE => 0%Z
         | _ => Port.PARENB h
         end
    /\ Z.land (Port.c_cflag o) (Port.PARODD h)
       = match Port.parity_ s with
         | Port.PARITY_ODD => Port.PARODD h
         | _ => 0%Z
         end
    /\ Z.land (Port.c_cflag o) (Port.CRTSCTS h)
       = (if Port.rtscts_ s then Port.CRTSCTS h else 0%Z).
Proof.
  intros (H5 & H6 & H7 & H8 & A1 & A2 & A3 & A4 & A5 & A6 & A7 & A8 & A9
          & A10) Hrun.
  unfold Port.reconfigurePort in Hrun.
  destruct (Port.fd_ s =? -1)%Z; [discriminate|].
  destruct (tc_r =? -1)%Z; [discriminate|].
  match type of Hrun with
  | context [Port.cfsetspeed h ?o ?b] =>
      set (sped := Port.cfsetspeed h o b) in *
  end.
  destruct (Port.bytesize_ s); try discriminate;
    (destruct (Port.stopbits_ s); try discriminate;
     (destruct (Port.parity_ s); try discriminate)).
  all: injection Hrun as _ <-.
  all: eexists; split; [reflexivity|].
  all: cbn [Port.c_cflag Port.size_bits].
  all: destruct (Port.rtscts_ s).
  all: repeat split.
  all: look_through; written.
Qed.

(** The theorem on Linux, for seven bits, even parity and 1.5 stop bits. *)
Lemma reconfigurePort_frame_format_witness :
  exists o,
    Port.installed
      (Port.syscalls
         (Port.reconfigurePort Port.linux
            (Port.mk (SerialImpl.mk 3 true 1000) "" 9600 Port.SEVENBITS
               Port.PARITY_EVEN Port.STOPBITS_ONE_POINT_FIVE 0 (-1) false
               true)
            0 Port.cooked)) = Some o
    /\ Z.land (Port.c_cflag o) (Port.CSIZE Port.linux) = Port.CS7 Port.linux
    /\ Z.land (Port.c_cflag o) (Port.CSTOPB Port.linux)
       = Port.CSTOPB Port.linux
    /\ Z.land (Port.c_cflag o) (Port.PARENB Port.linux)
       = Port.PARENB Port.linux
    /\ Z.land (Port.c_cflag o) (Port.PARODD Port.linux) = 0%Z
    /\ Z.land (Port.c_cflag o) (Port.CRTSCTS Port.linux)
       = Port.CRTSCTS Port.linux.
Proof.
  apply (reconfigurePort_frame_format Port.linux
           (Port.mk (SerialImpl.mk 3 true 1000) "" 9600 Port.SEVENBITS
              Port.PARITY_EVEN Port.STOPBITS_ONE_POINT_FIVE 0 (-1) false true)
           (Port.mk (SerialImpl.mk 3 true 1000) "" 9600 Port.SEVENBITS
              Port.PARITY_EVEN Port.STOPBITS_ONE_POINT_FIVE 0 (-1) false true)
           0 Port.cooked).
  - repeat split.
  - reflexivity.
Defined.
